(** * The WoW 3.3.5a executable patcher (main.cpp), embedded and verified

    The program validates a target executable by its exact size, copies it
    to a sibling [.backup] file and overwrites fixed byte ranges through one
    global [std::fstream].  The embedding below follows main.cpp function by
    function.  The file system, the global stream and the behaviour of the
    device under the stream are explicit state; console output and every
    library call on the file system or on the stream are recorded as events,
    so that statements about the order of calls can be made.

    What the embedding takes from the C++ library rather than from
    main.cpp: a default-constructed [std::fstream] is closed and good;
    [operator!] is [fail()]; [seekp] on a closed stream and a short
    [write] set failbit and badbit; [fs::remove] of a missing file is not
    an error.  Whether the device accepts a copy, a removal, a renaming,
    a seek or a byte is not decided by the program: each such operation
    consumes one answer of [oracle].

    [wowExe] is a buffered stream: the program never sets a buffer of its
    own, never flushes, and never sets [unitbuf].  A byte that [write]
    hands to the stream is taken into the buffer, and the device sees it
    when the buffer is flushed, which the next [seekp] and [close] do.  A
    refusal of the device therefore never fails the [write] of the byte it
    concerns; it fails the [seekp] that follows.  The embedding keeps no
    buffer of its own.  Between a [write] and the flush that carries it
    the program does nothing that reaches the device, so [files] shows the
    file of the stream as it is once the buffer is flushed: a byte the
    device will take is stored when it is written, a byte the device will
    refuse is never stored, and the refusal waits at the head of [oracle]
    for the [seekp] that flushes.  The buffer is taken to be large enough
    for what is written between two flushes, see [buffer_room].

    The values written are bytes ([uint8_t], one byte per [write] in
    [writeBytesAt]); sizes and positions are integers of [Z], within the
    range of [std::streamoff] for every file the model can hold. *)

From Stdlib Require Import ZArith String.
From Stdlib.Strings Require Import Byte.
From stdpp Require Import base option list strings gmap.

Local Open Scope Z_scope.

(** ** Data model *)

(** A regular file: its bytes and whether the process may read or write it. *)
Record file : Type := File {
  data : list byte;
  readable : bool;
  writable : bool
}.

Definition fsize (f : file) : Z := Z.of_nat (length (data f)).

(** The state of [std::fstream wowExe]: the file it is bound to (when open),
    the two error bits of [std::ios_base::iostate] that [operator!] looks at,
    and the put position. *)
Record fstream : Type := Fstream {
  fd : option string;
  failbit : bool;
  badbit : bool;
  ppos : Z
}.

(** A default-constructed stream: closed, and in the good state. *)
Definition fresh_stream : fstream := Fstream None false false 0.

Definition is_open (s : fstream) : bool :=
  match fd s with Some _ => true | None => false end.

(** [!stream] is [stream.fail()]: failbit or badbit. *)
Definition fail (s : fstream) : bool := failbit s || badbit s.

Definition clear (s : fstream) : fstream := Fstream (fd s) false false (ppos s).
Definition setstate_failbit (s : fstream) : fstream :=
  Fstream (fd s) true (badbit s) (ppos s).
Definition setstate_badbit (s : fstream) : fstream :=
  Fstream (fd s) (failbit s) true (ppos s).
Definition set_ppos (s : fstream) (pos : Z) : fstream :=
  Fstream (fd s) (failbit s) (badbit s) pos.

(** A local [std::ifstream]: the bytes it reads from ([None] when the open
    failed, which leaves failbit set) and the get position. *)
Record ifstream : Type := Ifstream {
  contents : option (list byte);
  gpos : Z
}.

(** What a run does that can be observed from outside, in order.  Console
    events hold one line each, without its newline; [Cerr_what prefix] is
    the line made of [prefix] and the text of [e.what()] for the exception
    caught, a text the library chooses and the model leaves open.
    [Call_]/[Ret_] mark entry into and return from the two gate
    functions. *)
Inductive event : Type :=
  | Cout (line : string)
  | Cerr (line : string)
  | Cerr_what (prefix : string)
  | FsCopy (src dst : string) (ok : bool)
  | FsRemove (p : string) (ok : bool)
  | FsRename (src dst : string) (ok : bool)
  | IfstreamOpen (p : string) (ok : bool)
  | Open (p : string) (ok : bool)
  | Clear
  | Seekp (pos : Z) (ok : bool)
  | Write (bs : list byte) (ok : bool)
  | Close
  | Call_createBackup (p : string)
  | Ret_createBackup (r : option string)
  | Call_validateExecutable (p : string)
  | Ret_validateExecutable (r : bool).

(** Stream events are the calls made on [wowExe]. *)
Definition stream_event (e : event) : bool :=
  match e with
  | Open _ _ | Clear | Seekp _ _ | Write _ _ | Close => true
  | _ => false
  end.

Definition write_event (e : event) : bool :=
  match e with Write _ _ => true | _ => false end.

(** The world of a run: the directory, the global stream, and what the
    device will answer to the next operations that reach it ([true]: the
    operation succeeds; an exhausted list: no further fault). *)
Record world : Type := World {
  files : gmap string file;
  wowExe : fstream;
  oracle : list bool
}.

(** The world at program start. *)
Definition boot (fs : gmap string file) (o : list bool) : world :=
  World fs fresh_stream o.

(** ** Computations: state passing with an event log *)

Record outcome (A : Type) : Type := Outcome {
  value : A;
  final : world;
  events : list event
}.
Arguments Outcome {A} _ _ _.
Arguments value {A} _.
Arguments final {A} _.
Arguments events {A} _.

Definition M (A : Type) : Type := world → outcome A.

Global Instance M_ret : MRet M := λ A a w, Outcome a w [].
Global Instance M_bind : MBind M := λ A B f m w,
  let r := m w in
  let r' := f (value r) (final r) in
  Outcome (value r') (final r') (events r ++ events r').

Definition emit (e : event) : M unit := λ w, Outcome tt w [e].
Definition cout (line : string) : M unit := emit (Cout line).
Definition cerr (line : string) : M unit := emit (Cerr line).
Definition cerr_what (prefix : string) : M unit := emit (Cerr_what prefix).

Definition get_files : M (gmap string file) := λ w, Outcome (files w) w [].
Definition put_files (fs : gmap string file) : M unit :=
  λ w, Outcome tt (World fs (wowExe w) (oracle w)) [].
Definition get_stream : M fstream := λ w, Outcome (wowExe w) w [].
Definition put_stream (s : fstream) : M unit :=
  λ w, Outcome tt (World (files w) s (oracle w)) [].

(** One answer of the device. *)
Definition device : M bool := λ w,
  match oracle w with
  | [] => Outcome true w []
  | b :: o => Outcome b (World (files w) (wowExe w) o) []
  end.

(** Whether the device will take the next operation that reaches it; the
    answer is not consumed. *)
Definition foresee : M bool := λ w,
  Outcome (match oracle w with false :: _ => false | _ => true end) w [].

(** The answers up to the next refusal, counted and consumed with it. *)
Fixpoint taken (o : list bool) : nat * list bool :=
  match o with
  | true :: o' => let (k, r) := taken o' in (S k, r)
  | false :: o' => (0%nat, o')
  | [] => (0%nat, [])
  end.

(** How many bytes the device takes before it refuses again. *)
Definition copy_progress : M nat := λ w,
  Outcome (taken (oracle w)).1 (World (files w) (wowExe w) (taken (oracle w)).2) [].

(** A library call either returns or throws an exception of the library. *)
Inductive thrown (A : Type) : Type :=
  | Returns (a : A)
  | Throws.
Arguments Returns {A} _.
Arguments Throws {A}.

(** ** The library calls the program makes *)

Module fs.

(** [fs::exists(p)] *)
Definition exists_ (p : string) : M bool :=
  dir ← get_files;
  mret (match dir !! p with Some _ => true | None => false end).

(** [fs::copy(src, dst, fs::copy_options::overwrite_existing)] on regular
    files: throws, before it touches the destination, when the source is
    missing or unreadable, when source and destination are the same file,
    or when an existing destination is not writable.  Otherwise the
    destination is opened and truncated and the source's bytes are copied
    into it.  When the device takes the copy, the destination holds the
    source's bytes and permission bits.  When the device refuses it, the
    call throws with the copy cut short: the destination is left with
    the bytes that had reached it, as many as the device took. *)
Definition copy (src dst : string) : M (thrown unit) :=
  dir ← get_files;
  ok ← device;
  match dir !! src with
  | Some f =>
      if readable f && negb (String.eqb src dst)
         && match dir !! dst with Some g => writable g | None => true end
      then
        if (ok : bool) then
          put_files (<[dst := f]> dir);;
          emit (FsCopy src dst true);;
          mret (Returns tt)
        else
          k ← copy_progress;
          put_files (<[dst := File (take k (data f)) (readable f) (writable f)]>
                       dir);;
          emit (FsCopy src dst false);;
          mret Throws
      else emit (FsCopy src dst false);;
           mret Throws
  | None =>
      emit (FsCopy src dst false);;
      mret Throws
  end.

(** [fs::remove(p)]: returns whether a file was deleted; a missing file is
    not an error. *)
Definition remove (p : string) : M (thrown bool) :=
  dir ← get_files;
  ok ← device;
  if (ok : bool) then
    match dir !! p with
    | Some _ =>
        put_files (delete p dir);;
        emit (FsRemove p true);;
        mret (Returns true)
    | None =>
        emit (FsRemove p true);;
        mret (Returns false)
    end
  else emit (FsRemove p false);;
       mret Throws.

(** [fs::rename(src, dst)]: an existing [dst] is replaced. *)
Definition rename (src dst : string) : M (thrown unit) :=
  dir ← get_files;
  ok ← device;
  match dir !! src with
  | Some f =>
      if (ok : bool) then
        put_files (<[dst := f]> (delete src dir));;
        emit (FsRename src dst true);;
        mret (Returns tt)
      else emit (FsRename src dst false);;
           mret Throws
  | None =>
      emit (FsRename src dst false);;
      mret Throws
  end.

End fs.

(** [std::ifstream file(p, std::ios::binary)] *)
Definition ifstream_open (p : string) : M ifstream :=
  dir ← get_files;
  match dir !! p with
  | Some f =>
      if readable f
      then emit (IfstreamOpen p true);; mret (Ifstream (Some (data f)) 0)
      else emit (IfstreamOpen p false);; mret (Ifstream None 0)
  | None => emit (IfstreamOpen p false);; mret (Ifstream None 0)
  end.

Definition ifstream_fail (f : ifstream) : bool :=
  match contents f with Some _ => false | None => true end.

(** [file.seekg(0, std::ios::end)] *)
Definition seekg_end (f : ifstream) : ifstream :=
  match contents f with
  | Some bs => Ifstream (Some bs) (Z.of_nat (length bs))
  | None => f
  end.

(** [file.tellg()]: the position, or -1 on a failed stream. *)
Definition tellg (f : ifstream) : Z :=
  match contents f with Some _ => gpos f | None => -1 end.

(** The bytes of a file after one byte is stored at [pos]: in range it
    replaces the byte there; past the end the gap reads as zeros. *)
Definition store_at (l : list byte) (pos : Z) (b : byte) : list byte :=
  let i := Z.to_nat pos in
  if (i <? length l)%nat then <[i := b]> l
  else l ++ replicate (i - length l)%nat x00 ++ [b].

(** Operations on the global stream. *)
Module stream.

(** [wowExe.open(p, in | out | binary)]: fails on a stream that is already
    open and on a file that is missing or not both readable and writable;
    a successful open clears the error bits. *)
Definition open (p : string) : M unit :=
  s ← get_stream;
  dir ← get_files;
  match fd s with
  | Some _ => put_stream (setstate_failbit s);; emit (Open p false)
  | None =>
      match dir !! p with
      | Some f =>
          if readable f && writable f
          then put_stream (Fstream (Some p) false false 0);; emit (Open p true)
          else put_stream (setstate_failbit s);; emit (Open p false)
      | None => put_stream (setstate_failbit s);; emit (Open p false)
      end
  end.

(** [wowExe.close()].  The buffer is flushed on the way.  Bytes the
    device has refused are not offered to it again: the model takes a
    refusal to be final, where the library would try them once more.  Nor
    does the model record in the error bits that the flush of [close] was
    refused; the program does not look at the stream after [close]. *)
Definition close : M unit :=
  s ← get_stream;
  match fd s with
  | Some _ => put_stream (Fstream None (failbit s) (badbit s) (ppos s));; emit Close
  | None => put_stream (setstate_failbit s);; emit Close
  end.

(** [wowExe.clear()] *)
Definition clear : M unit :=
  s ← get_stream;
  put_stream (clear s);;
  emit Clear.

(** [wowExe.seekp(pos)]: nothing is sought on a failed stream; the seek
    fails (failbit) on a closed stream, for a negative position, or when
    the device refuses.  The seek flushes the buffer first, so a refusal
    that a byte written before has left at the head of [oracle] is the
    answer this seek gets. *)
Definition seekp (pos : Z) : M unit :=
  s ← get_stream;
  if fail s then put_stream (setstate_failbit s);; emit (Seekp pos false)
  else if is_open s && (0 <=? pos) then
    ok ← device;
    if (ok : bool) then put_stream (set_ppos s pos);; emit (Seekp pos true)
    else put_stream (setstate_failbit s);; emit (Seekp pos false)
  else put_stream (setstate_failbit s);; emit (Seekp pos false).

(** One byte goes to the stream at the put position.  The stream takes
    it into its buffer, whatever the device will say, and the put position
    moves on.  A byte the device will take at the flush consumes its
    answer and is stored; a byte the device will refuse is not stored, and
    the refusal stays where it is: it is the bytes that follow into the
    same buffer that are lost with it, and the flush that fails. *)
Definition sputc (b : byte) : M bool :=
  s ← get_stream;
  dir ← get_files;
  match fd s with
  | None => mret false
  | Some p =>
      match dir !! p with
      | None => mret false
      | Some f =>
          ok ← foresee;
          if (ok : bool) then
            device;;
            put_files (<[p := File (store_at (data f) (ppos s) b)
                                   (readable f) (writable f)]> dir);;
            put_stream (set_ppos s (ppos s + 1));;
            mret true
          else
            put_stream (set_ppos s (ppos s + 1));;
            mret true
      end
  end.

(** The bytes of a block go to the stream in order, while it takes them. *)
Fixpoint sputn (bs : list byte) : M bool :=
  match bs with
  | [] => mret true
  | b :: bs' =>
      ok ← sputc b;
      if (ok : bool) then sputn bs' else mret false
  end.

(** [wowExe.write(ptr, n)] for the [n] bytes [bs] at [ptr]: no byte is
    written on a failed stream (failbit); a block that the stream does
    not take whole sets badbit. *)
Definition write (bs : list byte) : M unit :=
  s ← get_stream;
  if fail s then put_stream (setstate_failbit s);; emit (Write bs false)
  else
    ok ← sputn bs;
    if (ok : bool) then emit (Write bs true)
    else
      s' ← get_stream;
      put_stream (setstate_badbit s');;
      emit (Write bs false).

End stream.

(** ** The program *)

Definition kExpectedSize : Z := 0x757C00.

Definition EXIT_SUCCESS : Z := 0.
Definition EXIT_FAILURE : Z := 1.

(** [std::optional]'s conversion to [bool]. *)
Definition has_value {A : Type} (o : option A) : bool :=
  match o with Some _ => true | None => false end.

Definition handleStreamError (stream : fstream) (message : string) : M bool :=
  if fail stream then
    cerr message;;
    mret true
  else mret false.

(** The loop of [writeBytesAt], one [write] of [sizeof(value)] = 1 byte per
    value. *)
Fixpoint writeBytesAt_loop (values : list byte) : M unit :=
  match values with
  | [] => mret tt
  | value :: rest =>
      stream.write [value];;
      s ← get_stream;
      err ← handleStreamError s "Failed to write to the stream";
      if (err : bool) then mret tt
      else writeBytesAt_loop rest
  end.

(** [writeBytesAt<uint8_t>] *)
Definition writeBytesAt (pos : Z) (values : list byte) : M unit :=
  s ← get_stream;
  if fail s then cerr "Stream is not open"
  else
    stream.clear;;
    stream.seekp pos;;
    s ← get_stream;
    err ← handleStreamError s "Failed to set position in the stream";
    if (err : bool) then mret tt
    else writeBytesAt_loop values.

Definition writeByteAt (pos : Z) (value : byte) : M unit :=
  s ← get_stream;
  if negb (is_open s) then cerr "File is not open."
  else
    stream.clear;;
    stream.seekp pos;;
    s ← get_stream;
    err ← handleStreamError s "Unable to seek position";
    if (err : bool) then mret tt
    else
      stream.write [value];;
      s ← get_stream;
      handleStreamError s "Unable to write to file";;
      mret tt.

Definition writeRepeatedBytesAt (pos : Z) (value : byte) (n : nat) : M unit :=
  s ← get_stream;
  if fail s then cerr "File stream is not open."
  else
    stream.clear;;
    stream.seekp pos;;
    s ← get_stream;
    err ← handleStreamError s "Failed to seek to position";
    if (err : bool) then mret tt
    else
      let buffer := replicate n value in
      stream.write buffer;;
      s ← get_stream;
      handleStreamError s "Write operation failed";;
      mret tt.

Definition createBackup (filepath : string) : M (option string) :=
  emit (Call_createBackup filepath);;
  let backupPath := filepath +:+ ".backup" in
  r ← fs.copy filepath backupPath;
  match r with
  | Returns _ =>
      cout ("Backup created at: " +:+ backupPath);;
      emit (Ret_createBackup (Some backupPath));;
      mret (Some backupPath)
  | Throws =>
      cerr_what "Failed to create backup: ";;
      emit (Ret_createBackup None);;
      mret None
  end.

Definition validateExecutable (filepath : string) : M bool :=
  emit (Call_validateExecutable filepath);;
  found ← fs.exists_ filepath;
  if negb found then
    cerr "Executable not found.";;
    emit (Ret_validateExecutable false);;
    mret false
  else
    file ← ifstream_open filepath;
    if ifstream_fail file then
      cerr "Failed to open executable for validation.";;
      emit (Ret_validateExecutable false);;
      mret false
    else
      let file := seekg_end file in
      if negb (tellg file =? kExpectedSize) then
        cerr "Validation failed: unexpected file size.";;
        emit (Ret_validateExecutable false);;
        mret false
      else
        cout "Executable validation passed.";;
        emit (Ret_validateExecutable true);;
        mret true.

Definition restoreBackup (wow : string) : M bool :=
  let backupPath := wow +:+ ".backup" in
  found ← fs.exists_ backupPath;
  if (found : bool) then
    r ← fs.remove wow;
    match r with
    | Throws =>
        cerr_what "Failed to restore backup: ";;
        mret false
    | Returns _ =>
        r' ← fs.rename backupPath wow;
        match r' with
        | Throws =>
            cerr_what "Failed to restore backup: ";;
            mret false
        | Returns _ => mret true
        end
    end
  else
    cerr "Backup not found.";;
    mret false.

(** The patch table of [main], in its order. *)
Definition patches : list (Z * list byte) :=
  [ (0x2A7, [xc0]);
    (0xE94, [xeb]);
    (0x2E1C67, replicate 11 x90);
    (0x33D7C9, [xeb]);
    (0x355BF, [xeb]);
    (0x33E0D6, replicate 22 x90);
    (0x16D899, [x05; x01; x00; x00; x00]);
    (0x2DB241, [x32]);
    (0x5CFBC0, [xc7; x05; x74; x8e; xd3; x00; xff; xff; xff; xff; xc3]);
    (0x469A2C, [xe9; x71; xf0; x0b; x00; xf8; x13; xd4; x00; x8b; x1d; xfc]);
    (0x528AA2, [x8d; x4d; xf0; x51; x57; xff; x15; xdc; xf5; x9d; x00; x8b;
                x45; xf0; x8b; x15; xf8; x13; xd4; x00; xe9; x7a; x0f; xf4;
                xff]);
    (0x4691B1, [x89; xe5; x8b; x05; xfc; x13; xd4; x00; x8b; x0d; xf8; x13;
                xd4; x00; xeb; xc2; x7d; x03; x83; xc1; x01; x83; xc0; x32;
                x83; xc1; x32; x3b; x0d; xec; xbc; xca; x00; x7e; x03; x83;
                xe9; x01; x3b; x05; xf0; xbc; xca; x00; x7e; x03; x83; xe8;
                x01; x83; xe9; x32; x83; xe8; x32; x89; x0d; xf8; x13; xd4;
                x00; x89; x05; xfc; x13; xd4; x00; x89; xec; x5d; xe9; xb4;
                xf7; xff; xff; xec; x5d; xc3; xc3]);
    (0x469183, [x83; xf8; x32; x7d; x03; x83; xc0; x01; x83; xf9; x32; xeb;
                x31]) ].

(** The [for] loop over the table: every entry is handed to
    [writeBytesAt], whose [void] result gives the loop nothing to test. *)
Fixpoint apply_patches (table : list (Z * list byte)) : M unit :=
  match table with
  | [] => mret tt
  | (pos, bytes) :: rest =>
      writeBytesAt pos bytes;;
      apply_patches rest
  end.

(** [main], with the patch table as a parameter. *)
Definition main_with (table : list (Z * list byte)) (argv : list string) : M Z :=
  let errorState := EXIT_SUCCESS in
  if Z.of_nat (length argv) <? 2 then
    cerr "World of Warcraft exe path not provided!";;
    mret EXIT_FAILURE
  else
    let wowPath := nth 1 argv EmptyString in
    found ← fs.exists_ wowPath;
    if negb found then
      cerr ("Executable not found at: " +:+ wowPath);;
      mret EXIT_FAILURE
    else
      backup ← createBackup wowPath;
      if negb (has_value backup) then
        cerr "Backup creation failed. Aborting.";;
        mret EXIT_FAILURE
      else
        valid ← validateExecutable wowPath;
        if negb valid then
          cerr "Executable validation failed. Aborting.";;
          mret EXIT_FAILURE
        else
          stream.open wowPath;;
          s ← get_stream;
          if fail s then
            cerr "Failed to open executable for patching.";;
            mret EXIT_FAILURE
          else
            apply_patches table;;
            stream.close;;
            cout "Patching completed successfully.";;
            mret errorState.

Definition main (argv : list string) : M Z := main_with patches argv.

(** ** Vocabulary of the statements *)

(** What the buffer of the stream is taken to hold between two flushes.
    Its size is the library's choice, some thousands of bytes in the
    common ones.  The longest entry of [patches] has 79. *)
Definition buffer_room : nat := 1023.

(** The first [n] answers of the device report no fault. *)
Definition faultless (n : nat) (o : list bool) : bool := forallb id (take n o).

(** The bytes of a file after [bs] are stored one after the other from
    [pos] on. *)
Fixpoint store_seq (l : list byte) (pos : Z) (bs : list byte) : list byte :=
  match bs with
  | [] => l
  | b :: bs' => store_seq (store_at l pos b) (pos + 1) bs'
  end.

(** A file with the bytes [l] in place of those of [f]. *)
Definition with_data (f : file) (l : list byte) : file :=
  File l (readable f) (writable f).

(** No event of the log is a [write] on the stream. *)
Definition no_write (t : list event) : Prop :=
  Forall (λ e, write_event e = false) t.

(** No event of the log is a call on the stream. *)
Definition no_stream_event (t : list event) : Prop :=
  Forall (λ e, stream_event e = false) t.

(** Events a failing validation leaves between its call and its return. *)
Definition diagnostic (e : event) : bool :=
  match e with Cerr _ | IfstreamOpen _ _ => true | _ => false end.

(** Calls of the validator. *)
Definition validator_call (e : event) : bool :=
  match e with Call_validateExecutable _ => true | _ => false end.

(** Events of the patching stage: calls on the open stream and the
    diagnostics of the byte writers. *)
Definition patch_event (e : event) : bool :=
  match e with Clear | Seekp _ _ | Write _ _ | Cerr _ => true | _ => false end.

(** [w'] differs from [w] at most in the file the stream is bound to, in
    the stream's error bits and position, and in the device's answers. *)
Definition stream_frame (w w' : world) : Prop :=
  fd (wowExe w') = fd (wowExe w) ∧
  ∀ q, fd (wowExe w) ≠ Some q → files w' !! q = files w !! q.

(** A computation of the patching stage: it stays within the frame and
    logs patching events only. *)
Definition patch_stage {A : Type} (m : M A) : Prop :=
  ∀ w, stream_frame w (final (m w)) ∧
       Forall (λ e, patch_event e = true) (events (m w)).

(** The log of a successful [createBackup]. *)
Definition backup_log (p : string) : list event :=
  [ Call_createBackup p;
    FsCopy p (p +:+ ".backup") true;
    Cout ("Backup created at: " +:+ (p +:+ ".backup"));
    Ret_createBackup (Some (p +:+ ".backup")) ].

(** The log of a [createBackup] whose copy threw. *)
Definition failed_backup_log (p : string) : list event :=
  [ Call_createBackup p;
    FsCopy p (p +:+ ".backup") false;
    Cerr_what "Failed to create backup: ";
    Ret_createBackup None ].

(** The log of a passed validation. *)
Definition validation_log (p : string) : list event :=
  [ Call_validateExecutable p;
    IfstreamOpen p true;
    Cout "Executable validation passed.";
    Ret_validateExecutable true ].

(** The world a successful backup of [f] at [p] leaves. *)
Definition backed_up (p : string) (f : file) (w : world) : world :=
  World (<[p +:+ ".backup" := f]> (files w)) (wowExe w) (drop 1 (oracle w)).

(** The runs of [main], stage by stage: which outcome a run from [w] has,
    by the first gate that stops it. *)
Inductive main_run (table : list (Z * list byte)) (argv : list string)
    (w : world) : outcome Z → Prop :=
  | run_no_argument :
      (length argv < 2)%nat →
      main_run table argv w
        (Outcome EXIT_FAILURE w
           [Cerr "World of Warcraft exe path not provided!"])
  | run_not_found (p : string) :
      argv !! 1%nat = Some p → files w !! p = None →
      main_run table argv w
        (Outcome EXIT_FAILURE w [Cerr ("Executable not found at: " +:+ p)])
  | run_backup_failed (p : string) (f : file) (w' : world) :
      argv !! 1%nat = Some p → files w !! p = Some f →
      createBackup p w = Outcome None w' (failed_backup_log p) →
      wowExe w' = wowExe w →
      (∀ q, q ≠ p +:+ ".backup" → files w' !! q = files w !! q) →
      main_run table argv w
        (Outcome EXIT_FAILURE w'
           (failed_backup_log p ++ [Cerr "Backup creation failed. Aborting."]))
  | run_invalid (p : string) (f : file) (t : list event) :
      argv !! 1%nat = Some p → files w !! p = Some f →
      value (createBackup p w) = Some (p +:+ ".backup") →
      faultless 1 (oracle w) = true →
      (readable f = true → fsize f ≠ kExpectedSize) →
      Forall (λ e, diagnostic e = true) t →
      main_run table argv w
        (Outcome EXIT_FAILURE (backed_up p f w)
           (backup_log p
            ++ Call_validateExecutable p :: t
            ++ [ Ret_validateExecutable false;
                 Cerr "Executable validation failed. Aborting." ]))
  | run_open_failed (p : string) (f : file) :
      argv !! 1%nat = Some p → files w !! p = Some f →
      faultless 1 (oracle w) = true →
      readable f = true → fsize f = kExpectedSize →
      is_open (wowExe w) = true ∨ writable f = false →
      main_run table argv w
        (Outcome EXIT_FAILURE
           (World (files (backed_up p f w)) (setstate_failbit (wowExe w))
                  (drop 1 (oracle w)))
           (backup_log p ++ validation_log p
            ++ [ Open p false;
                 Cerr "Failed to open executable for patching." ]))
  | run_patched (p : string) (f : file) :
      argv !! 1%nat = Some p → files w !! p = Some f →
      faultless 1 (oracle w) = true →
      readable f = true → fsize f = kExpectedSize →
      is_open (wowExe w) = false → writable f = true →
      let r :=
        apply_patches table
          (World (files (backed_up p f w)) (Fstream (Some p) false false 0)
                 (drop 1 (oracle w))) in
      main_run table argv w
        (Outcome EXIT_SUCCESS (final (stream.close (final r)))
           (backup_log p ++ validation_log p ++ [Open p true]
            ++ events r
            ++ [Close; Cout "Patching completed successfully."])).

(** ** The patch table as a function on bytes *)

(** The bytes of a file after every entry of [table] is stored, in the
    order of the table. *)
Definition apply_table (table : list (Z * list byte)) (l : list byte) : list byte :=
  fold_left (λ l e, store_seq l e.1 e.2) table l.

(** Entry [e] writes the byte at position [i]. *)
Definition covers (e : Z * list byte) (i : Z) : bool :=
  (e.1 <=? i) && (i <? e.1 + Z.of_nat (length e.2)).

(** Every entry of the table lies within a file of [size] bytes. *)
Definition in_range (size : Z) (table : list (Z * list byte)) : bool :=
  forallb (λ e, (0 <=? e.1) && (e.1 + Z.of_nat (length e.2) <=? size)) table.

(** The byte at position [i] once the entries of [table] are laid over
    [init], each entry over those before it. *)
Definition overlay (table : list (Z * list byte)) (i : Z) (init : option byte)
    : option byte :=
  fold_left (λ acc e, if covers e i then e.2 !! Z.to_nat (i - e.1) else acc)
    table init.

(** Two entries write no position in common. *)
Definition apart (e e' : Z * list byte) : bool :=
  (e.1 + Z.of_nat (length e.2) <=? e'.1)
  || (e'.1 + Z.of_nat (length e'.2) <=? e.1).

(** No two entries of the table write the same position. *)
Fixpoint disjoint (table : list (Z * list byte)) : bool :=
  match table with
  | [] => true
  | e :: rest => forallb (apart e) rest && disjoint rest
  end.

(** What a fault-free patching stage asks of the device: one seek per
    entry and one write per byte. *)
Definition device_ops (table : list (Z * list byte)) : nat :=
  fold_right (λ e n, S (length e.2 + n))%nat 0%nat table.

(** The log of a fault-free patching stage. *)
Definition patch_log (table : list (Z * list byte)) : list event :=
  flat_map (λ e, Clear :: Seekp e.1 true :: map (λ b, Write [b] true) e.2) table.

(** The put position after a fault-free patching stage that starts at
    [init]. *)
Definition end_pos (table : list (Z * list byte)) (init : Z) : Z :=
  fold_left (λ _ e, e.1 + Z.of_nat (length e.2)) table init.

(** ** Worlds the examples run in *)

(** A three-byte target, at program start. *)
Definition tiny_exe : file := File [x4d; x5a; x90] true true.
Definition tiny_world : world := boot {[ "Wow.exe" := tiny_exe ]} [].

(** A four-byte file with the global stream open on it. *)
Definition small_file : file := File [x00; x01; x02; x03] true true.
Definition open_world (o : list bool) : world :=
  World {[ "f.bin" := small_file ]} (Fstream (Some "f.bin") false false 0) o.


(** An executable of the expected size. *)
Definition pristine_exe : file :=
  File (replicate (Z.to_nat kExpectedSize) x00) true true.

(** A directory with nothing but that executable, at program start. *)
Definition pristine_world (o : list bool) : world :=
  boot {[ "Wow.exe" := pristine_exe ]} o.

(** The run of [main] on that executable in which the device accepts the
    copy and the first seek and refuses the byte of the first entry. *)
Definition faulty_run : outcome Z :=
  main ["patcher"; "Wow.exe"] (pristine_world [true; true; false]).

(** Two overlapping entries for the four-byte file. *)
Definition overlapping_table : list (Z * list byte) :=
  [(0, [xaa; xbb]); (1, [xcc])].


(** The three-byte target with an older backup next to it. *)
Definition backed_world (o : list bool) : world :=
  boot (<["Wow.exe" := tiny_exe]>
          {[ "Wow.exe.backup" := File [x00] true true ]}) o.

(** ** Proof machinery *)

(** Tactics: [run] unfolds the monad and the accessors of worlds and
    outcomes, and nothing of the program; [run_with H] also rewrites with
    [H] on the way. *)
Ltac run :=
  unfold mbind, mret, M_bind, M_ret;
  cbn [cout cerr cerr_what emit get_files put_files get_stream put_stream
       copy_progress value final events files wowExe oracle app
       contents gpos ifstream_fail has_value negb andb orb].
Ltac run_with H := repeat (progress (run; rewrite ?H)).

(** Membership in a log that is known up to a tail, and its refutation
    for a log known in full. *)
Ltac in_log :=
  unfold backup_log, failed_backup_log, validation_log; cbn [app];
  repeat first [apply list_elem_of_here | apply list_elem_of_further].
Ltac out_of_log H :=
  unfold backup_log, failed_backup_log, validation_log in H; cbn [app] in H;
  repeat (apply elem_of_cons in H as [H|H]; [discriminate H|]);
  apply elem_of_nil in H; destruct H.

(** ** Basic facts *)

Lemma append_empty_r (s : string) : s +:+ EmptyString = s.
Proof. induction s as [|c s IH]; [done | by rewrite <- IH at 2]. Qed.

Lemma backup_path_fresh (p : string) : p +:+ ".backup" ≠ p.
Proof.
  intros E. rewrite <- (append_empty_r p) in E at 2.
  apply (inj (String.app p)) in E. discriminate.
Qed.

Lemma target_not_backup (p : string) : p ≠ p +:+ ".backup".
Proof. intros H. symmetry in H. by apply backup_path_fresh in H. Qed.

Lemma backup_path_eqb (p : string) : String.eqb p (p +:+ ".backup") = false.
Proof. apply String.eqb_neq. intros E. by apply (backup_path_fresh p). Qed.

Lemma pristine_size : fsize pristine_exe = kExpectedSize.
Proof.
  unfold fsize, pristine_exe. cbn [data].
  rewrite length_replicate. apply Z2Nat.id. discriminate.
Qed.

Lemma argv_second (argv : list string) (p : string) :
  argv !! 1%nat = Some p →
  (Z.of_nat (length argv) <? 2) = false ∧ nth 1 argv EmptyString = p.
Proof.
  destruct argv as [|a [|b argv]]; intros [= <-]. split; [|done].
  apply Z.ltb_ge. cbn [length]. lia.
Qed.

Lemma faultless_cons n b o :
  faultless (S n) (b :: o) = b && faultless n o.
Proof. done. Qed.

Lemma faultless_nil n : faultless n [] = true.
Proof. by destruct n. Qed.

Lemma faultless_S n o :
  faultless (S n) o = true → faultless 1 o = true ∧ faultless n (drop 1 o) = true.
Proof.
  destruct o as [|b o].
  - intros _. split; [done | apply faultless_nil].
  - rewrite faultless_cons. destruct b; [|done]. intros F. by split.
Qed.

(** ** Running the gate functions *)

Lemma device_cases (w : world) :
  ∃ b, device w = Outcome b (World (files w) (wowExe w) (drop 1 (oracle w))) []
       ∧ (faultless 1 (oracle w) = true → b = true)
       ∧ (b = true → faultless 1 (oracle w) = true).
Proof.
  destruct w as [dir s [|b o]]; unfold device; simpl.
  - by exists true.
  - exists b. rewrite drop_0. by destruct b.
Qed.

Lemma device_ok (dir : gmap string file) (s : fstream) (o : list bool) :
  faultless 1 o = true →
  device (World dir s o) = Outcome true (World dir s (drop 1 o)) [].
Proof. by destruct o as [|[] o]. Qed.

Lemma device_fault (dir : gmap string file) (s : fstream) (o : list bool) :
  device (World dir s (false :: o)) = Outcome false (World dir s o) [].
Proof. done. Qed.

Lemma foresee_ok (dir : gmap string file) (s : fstream) (o : list bool) :
  faultless 1 o = true →
  foresee (World dir s o) = Outcome true (World dir s o) [].
Proof. by destruct o as [|[] o]. Qed.

Lemma foresee_fault (dir : gmap string file) (s : fstream) (o : list bool) :
  foresee (World dir s (false :: o)) = Outcome false (World dir s (false :: o)) [].
Proof. done. Qed.

(** [createBackup] either copies the file and returns the backup path, or
    returns nothing and has changed no file but, at most, the one at the
    backup path. *)
Lemma createBackup_cases (p : string) (w : world) :
  (∃ f, files w !! p = Some f ∧ readable f = true ∧
        faultless 1 (oracle w) = true ∧
        createBackup p w =
          Outcome (Some (p +:+ ".backup")) (backed_up p f w) (backup_log p))
  ∨ (∃ w',
        createBackup p w = Outcome None w' (failed_backup_log p)
        ∧ wowExe w' = wowExe w
        ∧ ∀ q, q ≠ p +:+ ".backup" → files w' !! q = files w !! q).
Proof.
  unfold createBackup, fs.copy.
  destruct (device_cases w) as (b & Hd & Hb & Hb').
  destruct w as [dir s o]. simpl in *.
  destruct (dir !! p) as [f|] eqn:E.
  - destruct (readable f && negb (String.eqb p (p +:+ ".backup"))
              && match dir !! (p +:+ ".backup") with
                 | Some g => writable g | None => true end) eqn:C.
    + destruct b.
      * left. exists f.
        assert (readable f = true) as R by (by destruct (readable f)).
        split_and!; [done | done | by apply Hb' |].
        run_with Hd. run_with E. rewrite C. run. done.
      * right. eexists. run_with Hd. run_with E. rewrite C. run.
        split_and!; [done | done |].
        intros q Hq. by apply lookup_insert_ne.
    + right. eexists. run_with Hd. run_with E. rewrite C. run. by split_and!.
  - right. eexists. run_with Hd. run_with E. by split_and!.
Qed.

Lemma createBackup_ok (p : string) (f : file) (w : world) :
  files w !! p = Some f → readable f = true →
  (∀ g, files w !! (p +:+ ".backup") = Some g → writable g = true) →
  faultless 1 (oracle w) = true →
  createBackup p w =
    Outcome (Some (p +:+ ".backup")) (backed_up p f w) (backup_log p).
Proof.
  intros E R G F. unfold createBackup, fs.copy.
  destruct (device_cases w) as (b & Hd & Hb & _). rewrite (Hb F) in Hd.
  destruct w as [dir s o]. simpl in *.
  run_with Hd. run_with E. rewrite R, backup_path_eqb. simpl.
  destruct (dir !! (p +:+ ".backup")) as [g|] eqn:Eg; run; [|done].
  rewrite (G g eq_refl). by run.
Qed.

(** [validateExecutable] changes nothing; it passes on a readable file of
    the expected size and fails on anything else. *)
Lemma validateExecutable_cases (p : string) (w : world) :
  (∃ f, files w !! p = Some f ∧ readable f = true ∧ fsize f = kExpectedSize ∧
        validateExecutable p w = Outcome true w (validation_log p))
  ∨ ((∀ f, files w !! p = Some f → readable f = true → fsize f ≠ kExpectedSize) ∧
     ∃ t, validateExecutable p w =
            Outcome false w (Call_validateExecutable p :: t
                             ++ [Ret_validateExecutable false]) ∧
          Forall (λ e, diagnostic e = true) t).
Proof.
  unfold validateExecutable, fs.exists_, ifstream_open, fsize, tellg, seekg_end.
  destruct (files w !! p) as [f|] eqn:E; run_with E.
  - destruct (readable f) eqn:R; run_with E.
    + destruct (Z.of_nat (length (data f)) =? kExpectedSize) eqn:Hs; simpl.
      * apply Z.eqb_eq in Hs. left. by exists f.
      * apply Z.eqb_neq in Hs. right. split; [by intros ? [= <-] _|].
        eexists [_; _]. split; [done|]. by repeat constructor.
    + right. split; [intros ? [= <-]; congruence|].
      eexists [_; _]. split; [done|]. by repeat constructor.
  - right. split; [done|]. eexists [_]. split; [done|]. by repeat constructor.
Qed.

(** ** Running the stream operations *)

Lemma with_data_id (f : file) : with_data f (data f) = f.
Proof. by destruct f. Qed.

Lemma set_ppos_id (s : fstream) : set_ppos s (ppos s) = s.
Proof. by destruct s. Qed.

Lemma seekp_ok (pos : Z) (dir : gmap string file) (s : fstream) (o : list bool) :
  fail s = false → is_open s = true → 0 ≤ pos → faultless 1 o = true →
  stream.seekp pos (World dir s o) =
    Outcome tt (World dir (set_ppos s pos) (drop 1 o)) [Seekp pos true].
Proof.
  intros F O P D. unfold stream.seekp. apply Z.leb_le in P.
  run_with F. rewrite O, P. run_with (device_ok dir s o D). done.
Qed.

Lemma seekp_fault (pos : Z) (dir : gmap string file) (s : fstream) (o : list bool) :
  fail s = false → is_open s = true → 0 ≤ pos →
  stream.seekp pos (World dir s (false :: o)) =
    Outcome tt (World dir (setstate_failbit s) o) [Seekp pos false].
Proof.
  intros F O P. unfold stream.seekp. apply Z.leb_le in P.
  run_with F. rewrite O, P. run_with (device_fault dir s o). done.
Qed.

Lemma seekp_closed (pos : Z) (w : world) :
  fail (wowExe w) = false → is_open (wowExe w) = false →
  stream.seekp pos w =
    Outcome tt (World (files w) (setstate_failbit (wowExe w)) (oracle w))
      [Seekp pos false].
Proof.
  intros F O. unfold stream.seekp. run_with F. rewrite O. run. done.
Qed.

Lemma write1_ok (b : byte) (p : string) (f : file)
    (dir : gmap string file) (s : fstream) (o : list bool) :
  fail s = false → fd s = Some p → dir !! p = Some f → faultless 1 o = true →
  stream.write [b] (World dir s o) =
    Outcome tt
      (World (<[p := with_data f (store_at (data f) (ppos s) b)]> dir)
             (set_ppos s (ppos s + 1)) (drop 1 o))
      [Write [b] true].
Proof.
  intros F O E D. unfold stream.write, stream.sputn, stream.sputc.
  run_with F. rewrite O. run_with E. run_with (foresee_ok dir s o D).
  run_with (device_ok dir s o D). done.
Qed.

(** A byte the device will refuse: the stream takes it all the same, and
    the refusal is left for the flush. *)
Lemma write1_refused (b : byte) (p : string) (f : file)
    (dir : gmap string file) (s : fstream) (o : list bool) :
  fail s = false → fd s = Some p → dir !! p = Some f →
  stream.write [b] (World dir s (false :: o)) =
    Outcome tt (World dir (set_ppos s (ppos s + 1)) (false :: o))
      [Write [b] true].
Proof.
  intros F O E. unfold stream.write, stream.sputn, stream.sputc.
  run_with F. rewrite O. run_with E. run_with (foresee_fault dir s o). done.
Qed.

Lemma fail_set_ppos (s : fstream) (pos : Z) : fail (set_ppos s pos) = fail s.
Proof. done. Qed.

Lemma fail_setstate_failbit (s : fstream) : fail (setstate_failbit s) = true.
Proof. done. Qed.

(** Every value goes out while the device reports no fault. *)
Lemma writeBytesAt_loop_ok (values : list byte) :
  ∀ (p : string) (f : file) (dir : gmap string file) (s : fstream) (o : list bool),
  fail s = false → fd s = Some p → dir !! p = Some f →
  faultless (length values) o = true →
  writeBytesAt_loop values (World dir s o) =
    Outcome tt
      (World (<[p := with_data f (store_seq (data f) (ppos s) values)]> dir)
             (set_ppos s (ppos s + Z.of_nat (length values)))
             (drop (length values) o))
      (map (λ b, Write [b] true) values).
Proof.
  induction values as [|v values IH]; intros p f dir s o F O E D.
  - simpl. rewrite with_data_id, (insert_id dir p f E), Z.add_0_r, set_ppos_id.
    by rewrite drop_0.
  - apply faultless_S in D as [D1 D2].
    cbn [writeBytesAt_loop]. unfold handleStreamError.
    run_with (write1_ok v p f dir s o F O E D1). rewrite fail_set_ppos, F.
    run. erewrite IH; [| done | done | apply lookup_insert_eq | exact D2].
    run. rewrite insert_insert_eq, drop_drop.
    cbn [data with_data ppos set_ppos store_seq readable writable
         fd failbit badbit map].
    assert (ppos s + 1 + Z.of_nat (length values)
            = ppos s + Z.of_nat (S (length values))) as -> by lia.
    reflexivity.
Qed.

(** Once the device refuses, the loop goes on: the stream takes every
    value that is left, none of them is stored, and the refusal is still
    to come. *)
Lemma writeBytesAt_loop_refused (values : list byte) :
  ∀ (p : string) (f : file) (dir : gmap string file) (s : fstream) (o : list bool),
  fail s = false → fd s = Some p → dir !! p = Some f →
  writeBytesAt_loop values (World dir s (false :: o)) =
    Outcome tt
      (World dir (set_ppos s (ppos s + Z.of_nat (length values))) (false :: o))
      (map (λ b, Write [b] true) values).
Proof.
  induction values as [|v values IH]; intros p f dir s o F O E.
  - simpl. by rewrite Z.add_0_r, set_ppos_id.
  - cbn [writeBytesAt_loop]. unfold handleStreamError.
    run_with (write1_refused v p f dir s o F O E). rewrite fail_set_ppos, F.
    run. erewrite IH; [| done | done | done].
    run. cbn [ppos set_ppos fd failbit badbit map length].
    assert (ppos s + 1 + Z.of_nat (length values)
            = ppos s + Z.of_nat (S (length values))) as -> by lia.
    reflexivity.
Qed.

(** The values before the one the device refuses are stored; that value
    and the values after it are taken by the stream and lost. *)
Lemma writeBytesAt_loop_cut (written rest : list byte) :
  ∀ (p : string) (f : file) (dir : gmap string file) (s : fstream) (o : list bool),
  fail s = false → fd s = Some p → dir !! p = Some f →
  writeBytesAt_loop (written ++ rest)
      (World dir s (replicate (length written) true ++ false :: o)) =
    Outcome tt
      (World (<[p := with_data f (store_seq (data f) (ppos s) written)]> dir)
             (set_ppos s (ppos s + Z.of_nat (length (written ++ rest))))
             (false :: o))
      (map (λ b, Write [b] true) (written ++ rest)).
Proof.
  induction written as [|b written IH]; intros p f dir s o F O E.
  - cbn [app length replicate store_seq].
    rewrite (writeBytesAt_loop_refused rest p f dir s o F O E).
    by rewrite with_data_id, (insert_id dir p f E).
  - cbn [app length replicate writeBytesAt_loop]. unfold handleStreamError.
    run_with (write1_ok b p f dir s
                (true :: replicate (length written) true ++ false :: o)
                F O E eq_refl).
    rewrite fail_set_ppos, F. run.
    cbn [drop]. rewrite drop_0.
    erewrite IH; [| done | done | apply lookup_insert_eq].
    run. rewrite insert_insert_eq.
    cbn [data with_data ppos set_ppos store_seq readable writable
         fd failbit badbit map].
    assert (ppos s + 1 + Z.of_nat (length (written ++ rest))
            = ppos s + Z.of_nat (S (length (written ++ rest)))) as -> by lia.
    reflexivity.
Qed.

(** ** The patching stage stays within its frame *)

Lemma stream_frame_refl (w : world) : stream_frame w w.
Proof. by split. Qed.

Lemma stream_frame_trans (w1 w2 w3 : world) :
  stream_frame w1 w2 → stream_frame w2 w3 → stream_frame w1 w3.
Proof.
  intros [F1 G1] [F2 G2]. split; [congruence|].
  intros q Hq. rewrite G2, G1; [done | done | congruence].
Qed.

Lemma patch_stage_ret {A : Type} (a : A) : patch_stage (mret a : M A).
Proof. intros w. split; [apply stream_frame_refl | constructor]. Qed.

Lemma patch_stage_bind {A B : Type} (m : M A) (f : A → M B) :
  patch_stage m → (∀ a, patch_stage (f a)) → patch_stage (m ≫= f).
Proof.
  intros Hm Hf w. destruct (Hm w) as [F1 L1].
  destruct (Hf (value (m w)) (final (m w))) as [F2 L2].
  split; [by eapply stream_frame_trans | by apply Forall_app].
Qed.

Lemma patch_stage_get_stream : patch_stage get_stream.
Proof. intros w. split; [apply stream_frame_refl | constructor]. Qed.

Lemma patch_stage_cerr (line : string) : patch_stage (cerr line).
Proof. intros w. split; [apply stream_frame_refl | by repeat constructor]. Qed.

Lemma patch_stage_clear : patch_stage stream.clear.
Proof. intros w. split; [by split | by repeat constructor]. Qed.

Lemma patch_stage_seekp (pos : Z) : patch_stage (stream.seekp pos).
Proof.
  intros [dir s o]. unfold stream.seekp. run.
  destruct (fail s); [split; [by split | by repeat constructor]|].
  destruct (is_open s && (0 <=? pos));
    [|split; [by split | by repeat constructor]].
  destruct o as [|[] o]; run; (split; [by split | by repeat constructor]).
Qed.

Lemma sputc_frame (b : byte) (w : world) :
  stream_frame w (final (stream.sputc b w)) ∧ events (stream.sputc b w) = [].
Proof.
  destruct w as [dir s o]. unfold stream.sputc. run.
  destruct (fd s) as [p|] eqn:O; run; [|by split].
  destruct (dir !! p) as [f|] eqn:E; run; [|by split].
  destruct o as [|[] o]; unfold foresee, device; run;
    (split; [|done]); split; try done.
  all: intros q Hq; cbn [wowExe] in Hq; apply lookup_insert_ne; congruence.
Qed.

Lemma sputn_frame (bs : list byte) (w : world) :
  stream_frame w (final (stream.sputn bs w)) ∧ events (stream.sputn bs w) = [].
Proof.
  revert w. induction bs as [|b bs IH]; intros w; [by split|].
  cbn [stream.sputn]. run.
  destruct (sputc_frame b w) as [F1 E1]. rewrite E1.
  destruct (value (stream.sputc b w)); run; [|by split].
  destruct (IH (final (stream.sputc b w))) as [F2 E2].
  split; [by eapply stream_frame_trans | done].
Qed.

Lemma patch_stage_write (bs : list byte) : patch_stage (stream.write bs).
Proof.
  intros w. unfold stream.write. run.
  destruct (fail (wowExe w)); run; [split; [by split | by repeat constructor]|].
  destruct (sputn_frame bs w) as [[F G] E]. rewrite E.
  destruct (value (stream.sputn bs w)); run;
    (split; [by split | by repeat constructor]).
Qed.

Lemma patch_stage_handleStreamError (s : fstream) (message : string) :
  patch_stage (handleStreamError s message).
Proof.
  unfold handleStreamError. destruct (fail s).
  - apply patch_stage_bind; [apply patch_stage_cerr | intros; apply patch_stage_ret].
  - apply patch_stage_ret.
Qed.

Lemma patch_stage_writeBytesAt_loop (values : list byte) :
  patch_stage (writeBytesAt_loop values).
Proof.
  induction values as [|v values IH]; [apply patch_stage_ret|].
  cbn [writeBytesAt_loop].
  apply patch_stage_bind; [apply patch_stage_write | intros _].
  apply patch_stage_bind; [apply patch_stage_get_stream | intros s].
  apply patch_stage_bind; [apply patch_stage_handleStreamError | intros err].
  destruct err; [apply patch_stage_ret | apply IH].
Qed.

Lemma patch_stage_writeBytesAt (pos : Z) (values : list byte) :
  patch_stage (writeBytesAt pos values).
Proof.
  unfold writeBytesAt.
  apply patch_stage_bind; [apply patch_stage_get_stream | intros s].
  destruct (fail s); [apply patch_stage_cerr|].
  apply patch_stage_bind; [apply patch_stage_clear | intros _].
  apply patch_stage_bind; [apply patch_stage_seekp | intros _].
  apply patch_stage_bind; [apply patch_stage_get_stream | intros s'].
  apply patch_stage_bind; [apply patch_stage_handleStreamError | intros err].
  destruct err; [apply patch_stage_ret | apply patch_stage_writeBytesAt_loop].
Qed.

Lemma patch_stage_apply_patches (table : list (Z * list byte)) :
  patch_stage (apply_patches table).
Proof.
  induction table as [|[pos bytes] table IH]; [apply patch_stage_ret|].
  cbn [apply_patches].
  apply patch_stage_bind; [apply patch_stage_writeBytesAt | intros _; apply IH].
Qed.

(** ** Running the byte writers *)

Lemma clear_good (s : fstream) : fail s = false → clear s = s.
Proof. by destruct s as [o [] [] z]. Qed.

Lemma is_open_fd (s : fstream) (p : string) : fd s = Some p → is_open s = true.
Proof. unfold is_open. by intros ->. Qed.

Lemma clear_run (w : world) :
  stream.clear w = Outcome tt (World (files w) (clear (wowExe w)) (oracle w)) [Clear].
Proof. done. Qed.

(** On a failed stream [writeBytesAt] does nothing but complain. *)
Lemma writeBytesAt_skipped (pos : Z) (values : list byte) (w : world) :
  fail (wowExe w) = true →
  writeBytesAt pos values w = Outcome tt w [Cerr "Stream is not open"].
Proof. intros F. unfold writeBytesAt. run_with F. done. Qed.

(** On a stream that is closed but not failed it clears and seeks. *)
Lemma writeBytesAt_closed (pos : Z) (values : list byte) (w : world) :
  fail (wowExe w) = false → is_open (wowExe w) = false →
  writeBytesAt pos values w =
    Outcome tt (World (files w) (setstate_failbit (wowExe w)) (oracle w))
      [Clear; Seekp pos false; Cerr "Failed to set position in the stream"].
Proof.
  intros F O. unfold writeBytesAt, handleStreamError.
  run_with F. rewrite clear_run. run. rewrite (clear_good _ F).
  rewrite (seekp_closed pos (World (files w) (wowExe w) (oracle w)) F O).
  run. rewrite fail_setstate_failbit. run. done.
Qed.

Lemma writeBytesAt_seek_fault (pos : Z) (values : list byte)
    (dir : gmap string file) (s : fstream) (o : list bool) :
  fail s = false → is_open s = true → 0 ≤ pos →
  writeBytesAt pos values (World dir s (false :: o)) =
    Outcome tt (World dir (setstate_failbit s) o)
      [Clear; Seekp pos false; Cerr "Failed to set position in the stream"].
Proof.
  intros F O P. unfold writeBytesAt, handleStreamError.
  run_with F. rewrite clear_run. run. rewrite (clear_good _ F).
  rewrite (seekp_fault pos dir s o F O P).
  run. rewrite fail_setstate_failbit. run. done.
Qed.

Lemma writeBytesAt_ok (pos : Z) (values : list byte) (p : string) (f : file)
    (dir : gmap string file) (s : fstream) (o : list bool) :
  fail s = false → fd s = Some p → dir !! p = Some f → 0 ≤ pos →
  faultless (S (length values)) o = true →
  writeBytesAt pos values (World dir s o) =
    Outcome tt
      (World (<[p := with_data f (store_seq (data f) pos values)]> dir)
             (set_ppos s (pos + Z.of_nat (length values)))
             (drop (S (length values)) o))
      (Clear :: Seekp pos true :: map (λ b, Write [b] true) values).
Proof.
  intros F O E P D. apply faultless_S in D as [D1 D2].
  unfold writeBytesAt, handleStreamError.
  run_with F. rewrite clear_run. run. rewrite (clear_good _ F).
  rewrite (seekp_ok pos dir s o F (is_open_fd s p O) P D1).
  run. rewrite fail_set_ppos, F. run.
  rewrite (writeBytesAt_loop_ok values p f dir (set_ppos s pos) (drop 1 o));
    [| done | done | done | done].
  run. by rewrite drop_drop.
Qed.

(** A write the device refuses part of: the call logs nothing and
    leaves the stream good, with the refusal still to come. *)
Lemma writeBytesAt_write_refused (pos : Z) (written rest : list byte)
    (p : string) (f : file)
    (dir : gmap string file) (s : fstream) (o : list bool) :
  fail s = false → fd s = Some p → dir !! p = Some f → 0 ≤ pos →
  writeBytesAt pos (written ++ rest)
      (World dir s (true :: replicate (length written) true ++ false :: o)) =
    Outcome tt
      (World (<[p := with_data f (store_seq (data f) pos written)]> dir)
             (set_ppos s (pos + Z.of_nat (length (written ++ rest))))
             (false :: o))
      (Clear :: Seekp pos true
       :: map (λ b, Write [b] true) (written ++ rest)).
Proof.
  intros F O E P.
  unfold writeBytesAt, handleStreamError.
  run_with F. rewrite clear_run. run. rewrite (clear_good _ F).
  rewrite (seekp_ok pos dir s
             (true :: replicate (length written) true ++ false :: o)
             F (is_open_fd s p O) P eq_refl).
  run. rewrite fail_set_ppos, F. run. cbn [drop]. rewrite drop_0.
  rewrite (writeBytesAt_loop_cut written rest p f dir (set_ppos s pos) o);
    done.
Qed.

(** Once the stream has failed, the loop over the table writes nothing:
    every remaining entry is answered by the guard of [writeBytesAt]. *)
Lemma apply_patches_skipped (table : list (Z * list byte)) (w : world) :
  fail (wowExe w) = true →
  apply_patches table w =
    Outcome tt w (map (λ _, Cerr "Stream is not open") table).
Proof.
  intros F. induction table as [|[pos bytes] table IH]; [done|].
  cbn [apply_patches]. run. rewrite (writeBytesAt_skipped pos bytes w F).
  run. by rewrite IH.
Qed.

(** ** The runs of [main] *)

Lemma argv_at_least_two (argv : list string) :
  (Z.of_nat (length argv) <? 2) = false →
  argv !! 1%nat = Some (nth 1 argv EmptyString).
Proof.
  destruct argv as [|a [|b argv]]; [done | done | by intros _].
Qed.

Lemma open_cases (p : string) (w : world) :
  (is_open (wowExe w) = false ∧
   (∃ f, files w !! p = Some f ∧ readable f = true ∧ writable f = true) ∧
   stream.open p w =
     Outcome tt (World (files w) (Fstream (Some p) false false 0) (oracle w))
       [Open p true])
  ∨ ((is_open (wowExe w) = true ∨
      ∀ f, files w !! p = Some f → readable f = true → writable f = false) ∧
     stream.open p w =
       Outcome tt (World (files w) (setstate_failbit (wowExe w)) (oracle w))
         [Open p false]).
Proof.
  unfold stream.open, is_open. run.
  destruct (fd (wowExe w)) as [q|]; run; [right; split; [by left | done]|].
  destruct (files w !! p) as [f|] eqn:E; run.
  - destruct (readable f) eqn:R, (writable f) eqn:W; run.
    + left. split_and!; [done | by exists f | done].
    + right. split; [right; by intros ? [= <-] | done].
    + right. split; [right; intros ? [= <-]; congruence | done].
    + right. split; [right; intros ? [= <-]; congruence | done].
  - right. split; [by right | done].
Qed.

Lemma close_events (w : world) :
  events (stream.close w) = [Close] ∧ files (final (stream.close w)) = files w.
Proof. unfold stream.close. run. by destruct (fd (wowExe w)). Qed.

Lemma backed_up_target (p : string) (f : file) (w : world) :
  files w !! p = Some f → files (backed_up p f w) !! p = Some f.
Proof.
  intros E. unfold backed_up. cbn [files].
  rewrite lookup_insert_ne; [done | apply backup_path_fresh].
Qed.

(** Every run of [main] is one of the six runs of [main_run]. *)
Lemma main_with_run (table : list (Z * list byte)) (argv : list string) (w : world) :
  main_run table argv w (main_with table argv w).
Proof.
  unfold main_with.
  destruct (Z.of_nat (length argv) <? 2) eqn:A.
  { apply Z.ltb_lt in A. run. apply run_no_argument. lia. }
  pose proof (argv_at_least_two argv A) as Hp.
  set (p := nth 1 argv EmptyString) in *.
  unfold fs.exists_. run.
  destruct (files w !! p) as [f|] eqn:E; run.
  2: { by apply run_not_found. }
  destruct (createBackup_cases p w) as [(f' & E' & R & D & B) | (w' & B & S' & G)];
    rewrite B.
  2: { run. by eapply run_backup_failed. }
  assert (f' = f) as -> by congruence. run.
  pose proof (backed_up_target p f w E) as Eb.
  destruct (validateExecutable_cases p (backed_up p f w))
    as [(g & Eg & _ & S & ->) | (N & t & -> & T)].
  2: { run. rewrite <- (app_assoc t).
       apply run_invalid; try done; [by rewrite B | intros; by eapply N]. }
  assert (g = f) as -> by congruence. run.
  destruct (open_cases p (backed_up p f w)) as [(O & (g & Eg' & _ & W) & ->) | (O & ->)].
  - assert (g = f) as -> by congruence. run.
    change (fail (Fstream (Some p) false false 0)) with false. run.
    destruct (close_events (final (apply_patches table
      (World (files (backed_up p f w)) (Fstream (Some p) false false 0)
         (oracle (backed_up p f w)))))) as [-> _].
    by apply (run_patched table argv w p f).
  - run. rewrite fail_setstate_failbit. run.
    apply (run_open_failed table argv w p f); try done.
    destruct O as [O|O]; [by left | right; by apply O].
Qed.

(** ** What [store_seq] leaves in a file *)

Lemma store_at_in_range (l : list byte) (pos : Z) (b : byte) :
  (Z.to_nat pos < length l)%nat → store_at l pos b = <[Z.to_nat pos := b]> l.
Proof.
  intros H. unfold store_at. by rewrite (proj2 (Nat.ltb_lt _ _) H).
Qed.

(** Within the file the stored bytes replace those at [pos] and after;
    everything before and behind them stays. *)
Lemma store_seq_in_range (bs : list byte) :
  ∀ (l : list byte) (pos : Z),
  0 ≤ pos → (Z.to_nat pos + length bs ≤ length l)%nat →
  store_seq l pos bs
  = take (Z.to_nat pos) l ++ bs ++ drop (Z.to_nat pos + length bs) l.
Proof.
  induction bs as [|b bs IH]; intros l pos P H.
  - cbn [store_seq length app]. by rewrite Nat.add_0_r, take_drop.
  - cbn [store_seq length] in *.
    rewrite store_at_in_range by lia.
    rewrite IH by (rewrite ?length_insert; lia).
    replace (Z.to_nat (pos + 1)) with (S (Z.to_nat pos)) by lia.
    rewrite drop_insert_lt by lia.
    rewrite (take_S_r _ _ b) by (apply list_lookup_insert_eq; lia).
    rewrite take_insert_ge by lia.
    rewrite <- app_assoc. cbn [app]. do 3 f_equal. f_equal. lia.
Qed.

(** ** The validator *)


(** Validation changes neither the files nor the stream. *)
Lemma validateExecutable_pure (p : string) (w : world) :
  final (validateExecutable p w) = w.
Proof.
  by destruct (validateExecutable_cases p w)
    as [(f & E & R & S & ->) | (N & t & -> & _)].
Qed.

(** ** The backup manager *)

Lemma remove_ok (p : string) (dir : gmap string file) (s : fstream) (o : list bool) :
  faultless 1 o = true →
  ∃ r, fs.remove p (World dir s o)
       = Outcome (Returns r) (World (delete p dir) s (drop 1 o)) [FsRemove p true].
Proof.
  intros D. unfold fs.remove. run_with (device_ok dir s o D).
  destruct (dir !! p) eqn:E; run; eexists; [done|].
  by rewrite (delete_id dir p E).
Qed.

Lemma rename_ok (src dst : string) (f : file)
    (dir : gmap string file) (s : fstream) (o : list bool) :
  dir !! src = Some f → faultless 1 o = true →
  fs.rename src dst (World dir s o)
  = Outcome (Returns tt) (World (<[dst := f]> (delete src dir)) s (drop 1 o))
      [FsRename src dst true].
Proof.
  intros E D. unfold fs.rename. run_with (device_ok dir s o D). by run_with E.
Qed.



(** ** The byte writers *)

(** C10. On an open stream in the good state, [writeBytesAt] with an
    empty vector writes no byte and leaves every file as it is; when the
    seek succeeds, only the put position of the stream changes. *)
Theorem writeBytesAt_empty_is_noop (pos : Z) (w : world) :
  is_open (wowExe w) = true → fail (wowExe w) = false →
  files (final (writeBytesAt pos [] w)) = files w ∧
  no_write (events (writeBytesAt pos [] w)) ∧
  (0 ≤ pos → faultless 1 (oracle w) = true →
   wowExe (final (writeBytesAt pos [] w)) = set_ppos (wowExe w) pos ∧
   events (writeBytesAt pos [] w) = [Clear; Seekp pos true]).
Proof.
  intros O F. destruct w as [dir s o]. cbn [wowExe files oracle] in *.
  split_and!.
  - unfold writeBytesAt, handleStreamError, stream.seekp, device.
    run_with F. rewrite clear_run. run. rewrite (clear_good _ F), F, O. run.
    destruct (0 <=? pos); run; [|done].
    destruct o as [|[] o]; run; rewrite ?fail_set_ppos, ?F; by run.
  - unfold writeBytesAt, handleStreamError, stream.seekp, device.
    run_with F. rewrite clear_run. run. rewrite (clear_good _ F), F, O. run.
    destruct (0 <=? pos); run; [|by repeat constructor].
    destruct o as [|[] o]; run; rewrite ?fail_set_ppos, ?F; run;
      by repeat constructor.
  - intros P D. unfold writeBytesAt, handleStreamError.
    run_with F. rewrite clear_run. run. rewrite (clear_good _ F).
    rewrite (seekp_ok pos dir s o F O P D). run.
    rewrite fail_set_ppos, F. by run.
Qed.

(** An empty write at offset 2 of the four-byte file. *)
Lemma writeBytesAt_empty_is_noop_witness :
  files (final (writeBytesAt 2 [] (open_world []))) = files (open_world []) ∧
  wowExe (final (writeBytesAt 2 [] (open_world [])))
    = Fstream (Some "f.bin") false false 2.
Proof.
  destruct (writeBytesAt_empty_is_noop 2 (open_world []) eq_refl eq_refl)
    as (H1 & _ & H3).
  split; [exact H1|].
  destruct H3 as [H3 _]; [discriminate | reflexivity | exact H3].
Defined.




Lemma writeByteAt_closed (pos : Z) (v : byte) (w : world) :
  is_open (wowExe w) = false →
  writeByteAt pos v w = Outcome tt w [Cerr "File is not open."].
Proof. intros O. unfold writeByteAt. by run_with O. Qed.

Lemma writeRepeatedBytesAt_closed (pos : Z) (v : byte) (n : nat) (w : world) :
  fail (wowExe w) = false → is_open (wowExe w) = false →
  writeRepeatedBytesAt pos v n w =
    Outcome tt (World (files w) (setstate_failbit (wowExe w)) (oracle w))
      [Clear; Seekp pos false; Cerr "Failed to seek to position"].
Proof.
  intros F O. unfold writeRepeatedBytesAt, handleStreamError.
  run_with F. rewrite clear_run. run. rewrite (clear_good _ F).
  rewrite (seekp_closed pos (World (files w) (wowExe w) (oracle w)) F O).
  run. rewrite fail_setstate_failbit. run. done.
Qed.

(** C5, at the failing input.  The global stream at program start is not
    open.  [writeByteAt] returns at once, as documented; [writeBytesAt]
    and [writeRepeatedBytesAt], whose guard tests the error state and not
    [is_open()], go on to clear the stream and to seek on it. *)
Theorem byte_writers_on_a_closed_stream :
  is_open (wowExe tiny_world) = false
  ∧ events (writeByteAt 0x2A7 xc0 tiny_world) = [Cerr "File is not open."]
  ∧ events (writeBytesAt 0x2A7 [xc0] tiny_world)
    = [Clear; Seekp 0x2A7 false; Cerr "Failed to set position in the stream"]
  ∧ events (writeRepeatedBytesAt 0x2E1C67 x90 11 tiny_world)
    = [Clear; Seekp 0x2E1C67 false; Cerr "Failed to seek to position"]
  ∧ wowExe (final (writeBytesAt 0x2A7 [xc0] tiny_world))
    = Fstream None true false 0.
Proof.
  split_and!; [done | | | | ].
  - by rewrite writeByteAt_closed.
  - by rewrite writeBytesAt_closed.
  - by rewrite writeRepeatedBytesAt_closed.
  - by rewrite writeBytesAt_closed.
Qed.

(** ** Runs that reach the patching stage *)

Lemma validateExecutable_ok (p : string) (f : file) (w : world) :
  files w !! p = Some f → readable f = true → fsize f = kExpectedSize →
  validateExecutable p w = Outcome true w (validation_log p).
Proof.
  intros E R S.
  destruct (validateExecutable_cases p w)
    as [(g & Eg & _ & _ & ->) | (N & _)]; [done|].
  by destruct (N f E R).
Qed.

Lemma open_ok (p : string) (f : file) (w : world) :
  is_open (wowExe w) = false →
  files w !! p = Some f → readable f = true → writable f = true →
  stream.open p w =
    Outcome tt (World (files w) (Fstream (Some p) false false 0) (oracle w))
      [Open p true].
Proof.
  intros O E R W.
  destruct (open_cases p w) as [(_ & _ & ->) | ([O' | N] & _)];
    [done | congruence |].
  specialize (N f E R). congruence.
Qed.

(** A run whose gates all pass applies the table and reports success. *)
Lemma main_with_patched (table : list (Z * list byte)) (argv : list string)
    (p : string) (f : file) (w : world) :
  argv !! 1%nat = Some p →
  files w !! p = Some f → readable f = true → writable f = true →
  fsize f = kExpectedSize →
  (∀ g, files w !! (p +:+ ".backup") = Some g → writable g = true) →
  faultless 1 (oracle w) = true →
  is_open (wowExe w) = false →
  main_with table argv w =
    Outcome EXIT_SUCCESS
      (final (stream.close (final (apply_patches table
         (World (files (backed_up p f w)) (Fstream (Some p) false false 0)
                (drop 1 (oracle w)))))))
      (backup_log p ++ validation_log p ++ [Open p true]
       ++ events (apply_patches table
            (World (files (backed_up p f w)) (Fstream (Some p) false false 0)
                   (drop 1 (oracle w))))
       ++ [Close; Cout "Patching completed successfully."]).
Proof.
  intros A E R W S G D O.
  destruct (argv_second argv p A) as [A1 A2].
  unfold main_with. rewrite A1, A2.
  unfold fs.exists_. run_with E.
  rewrite (createBackup_ok p f w E R G D). run.
  rewrite (validateExecutable_ok p f (backed_up p f w)
             (backed_up_target p f w E) R S). run.
  rewrite (open_ok p f (backed_up p f w) O (backed_up_target p f w E) R W).
  run. change (fail (Fstream (Some p) false false 0)) with false. run.
  change (oracle (backed_up p f w)) with (drop 1 (oracle w)).
  destruct (close_events (final (apply_patches table
      (World (files (backed_up p f w)) (Fstream (Some p) false false 0)
         (drop 1 (oracle w)))))) as [-> _].
  done.
Qed.

Lemma exists_pure (p : string) (w : world) : final (fs.exists_ p w) = w.
Proof. done. Qed.

(** C2. When the argument is present, the target exists, the backup is
    created, validation passes and the stream opens, the exit code is
    [EXIT_SUCCESS], whatever the patch table is and whatever the device
    answers to the seeks and writes of the patching stage. *)
Theorem exit_success_once_gates_pass
    (table : list (Z * list byte)) (argv : list string) (p : string) (w : world) :
  argv !! 1%nat = Some p →
  value (fs.exists_ p w) = true →
  is_Some (value (createBackup p w)) →
  value (validateExecutable p (final (createBackup p w))) = true →
  fail (wowExe (final (stream.open p
         (final (validateExecutable p (final (createBackup p w))))))) = false →
  value (main_with table argv w) = EXIT_SUCCESS.
Proof.
  intros A X [bp B] V O.
  destruct (argv_second argv p A) as [A1 A2].
  unfold main_with. rewrite A1, A2. run.
  rewrite X, exists_pure. run. rewrite B. run. rewrite V. run.
  rewrite O. by run.
Qed.

Lemma pristine_lookup (o : list bool) :
  files (pristine_world o) !! "Wow.exe" = Some pristine_exe.
Proof. apply lookup_singleton_eq. Qed.

Lemma pristine_no_backup (o : list bool) (g : file) :
  files (pristine_world o) !! ("Wow.exe" +:+ ".backup") = Some g →
  writable g = true.
Proof.
  unfold pristine_world, boot. cbn [files].
  by rewrite lookup_singleton_ne.
Qed.

(** The backup is made, validation passes, the stream opens; the seek
    of the first entry succeeds and its byte is refused. *)
Lemma exit_success_once_gates_pass_witness :
  value (main ["patcher"; "Wow.exe"] (pristine_world [true; true; false]))
  = EXIT_SUCCESS.
Proof.
  assert (createBackup "Wow.exe" (pristine_world [true; true; false])
          = Outcome (Some ("Wow.exe" +:+ ".backup"))
              (backed_up "Wow.exe" pristine_exe
                 (pristine_world [true; true; false]))
              (backup_log "Wow.exe")) as B.
  { apply createBackup_ok;
      [apply pristine_lookup | reflexivity | apply pristine_no_backup
      | reflexivity]. }
  assert (validateExecutable "Wow.exe"
            (backed_up "Wow.exe" pristine_exe
               (pristine_world [true; true; false]))
          = Outcome true
              (backed_up "Wow.exe" pristine_exe
                 (pristine_world [true; true; false]))
              (validation_log "Wow.exe")) as V.
  { apply (validateExecutable_ok "Wow.exe" pristine_exe);
      [apply backed_up_target, pristine_lookup | reflexivity
      | apply pristine_size]. }
  apply (exit_success_once_gates_pass patches ["patcher"; "Wow.exe"] "Wow.exe").
  - reflexivity.
  - unfold fs.exists_. run. by rewrite pristine_lookup.
  - rewrite B. by eexists.
  - rewrite B. cbn [final]. by rewrite V.
  - rewrite B. cbn [final]. rewrite V. cbn [final].
    rewrite (open_ok "Wow.exe" pristine_exe);
      [reflexivity | reflexivity | apply backed_up_target, pristine_lookup
      | reflexivity | reflexivity].
Defined.

Lemma apply_patches_cons (pos : Z) (bytes : list byte)
    (rest : list (Z * list byte)) (w : world) :
  apply_patches ((pos, bytes) :: rest) w =
    Outcome tt
      (final (apply_patches rest (final (writeBytesAt pos bytes w))))
      (events (writeBytesAt pos bytes w)
       ++ events (apply_patches rest (final (writeBytesAt pos bytes w)))).
Proof.
  cbn [apply_patches]. run.
  by destruct (value (apply_patches rest (final (writeBytesAt pos bytes w)))).
Qed.

Lemma pristine_patched (table : list (Z * list byte)) (o : list bool) :
  faultless 1 o = true →
  main_with table ["patcher"; "Wow.exe"] (pristine_world o) =
    Outcome EXIT_SUCCESS
      (final (stream.close (final (apply_patches table
         (World (files (backed_up "Wow.exe" pristine_exe (pristine_world o)))
                (Fstream (Some "Wow.exe") false false 0) (drop 1 o))))))
      (backup_log "Wow.exe" ++ validation_log "Wow.exe"
       ++ [Open "Wow.exe" true]
       ++ events (apply_patches table
            (World (files (backed_up "Wow.exe" pristine_exe (pristine_world o)))
                   (Fstream (Some "Wow.exe") false false 0) (drop 1 o)))
       ++ [Close; Cout "Patching completed successfully."]).
Proof.
  intros D.
  apply (main_with_patched table ["patcher"; "Wow.exe"] "Wow.exe" pristine_exe
           (pristine_world o));
    [ reflexivity | apply pristine_lookup | reflexivity | reflexivity
    | apply pristine_size | apply pristine_no_backup | exact D | reflexivity ].
Qed.

(** Every entry of the table of [main] fits the buffer. *)
Lemma patches_fit_buffer :
  Forall (λ e, (length e.2 ≤ buffer_room)%nat) patches.
Proof.
  unfold patches, buffer_room.
  repeat (constructor; [cbn [snd length replicate]; lia|]). constructor.
Qed.

(** The run of [faulty_run], event by event. *)
Lemma faulty_run_outcome :
  value faulty_run = EXIT_SUCCESS
  ∧ events faulty_run
    = backup_log "Wow.exe" ++ validation_log "Wow.exe"
      ++ [ Open "Wow.exe" true;
           Clear; Seekp 0x2A7 true; Write [xc0] true;
           Clear; Seekp 0xE94 false;
           Cerr "Failed to set position in the stream" ]
      ++ replicate 11 (Cerr "Stream is not open")
      ++ [Close; Cout "Patching completed successfully."]
  ∧ files (final faulty_run) !! "Wow.exe" = Some pristine_exe.
Proof.
  unfold faulty_run, main.
  rewrite (pristine_patched patches [true; true; false] eq_refl).
  cbn [drop value final events].
  pose proof (writeBytesAt_write_refused 0x2A7 [] [xc0] "Wow.exe" pristine_exe
    (files (backed_up "Wow.exe" pristine_exe (pristine_world [true; true; false])))
    (Fstream (Some "Wow.exe") false false 0) []
    eq_refl eq_refl (backed_up_target _ _ _ (pristine_lookup _))) as H.
  cbn [length replicate app map store_seq] in H.
  rewrite with_data_id in H.
  unfold patches at 1 2. rewrite apply_patches_cons.
  rewrite H by discriminate. cbn [final events].
  rewrite apply_patches_cons.
  rewrite writeBytesAt_seek_fault by (reflexivity || discriminate).
  cbn [final events].
  rewrite apply_patches_skipped by apply fail_setstate_failbit.
  cbn [final events]. split_and!; [reflexivity | reflexivity |].
  match goal with
  | |- files (final (stream.close ?w)) !! _ = _ =>
      destruct (close_events w) as [_ ->]
  end.
  apply lookup_insert_eq.
Qed.

(** C7, at the failing input.  [main] runs on an executable of the
    expected size; the device refuses the byte of the first entry of the
    table.  The stream has taken the byte, so the refusal shows when the
    second entry seeks: that seek fails and is logged.  The loop goes on
    to call [writeBytesAt] for the eleven entries that follow, but the
    guard of [writeBytesAt] answers each of them on the failed stream,
    before [clear] is reached: no seek and no write is attempted for any
    of them.  From the second entry on nothing of the table is applied:
    every byte of the file but the one of the first entry is as it was.
    The exit code is [EXIT_SUCCESS].  The table has thirteen entries, each
    of which fits the buffer, and none but the first writes at 0x2A7. *)
Theorem patching_stops_at_first_refusal :
  value faulty_run = EXIT_SUCCESS
  ∧ events faulty_run
    = backup_log "Wow.exe" ++ validation_log "Wow.exe"
      ++ [ Open "Wow.exe" true;
           Clear; Seekp 0x2A7 true; Write [xc0] true;
           Clear; Seekp 0xE94 false;
           Cerr "Failed to set position in the stream" ]
      ++ replicate 11 (Cerr "Stream is not open")
      ++ [Close; Cout "Patching completed successfully."]
  ∧ (∃ f', files (final faulty_run) !! "Wow.exe" = Some f'
           ∧ length (data f') = length (data pristine_exe)
           ∧ ∀ i, i ≠ Z.to_nat 0x2A7 →
                  data f' !! i = data pristine_exe !! i)
  ∧ length patches = 13%nat
  ∧ Forall (λ e, (length e.2 ≤ buffer_room)%nat) patches
  ∧ Forall (λ e, covers e 0x2A7 = false) (drop 1 patches).
Proof.
  destruct faulty_run_outcome as (V & E & F).
  split_and!; [exact V | exact E | | reflexivity | apply patches_fit_buffer | ].
  - exists pristine_exe. split; [exact F|]. split; reflexivity.
  - unfold patches. cbn [drop]. repeat (constructor; [reflexivity|]).
    constructor.
Qed.

(** ** The order of the gates and of the writes *)

Lemma split_behind {A : Type} (P : A → bool) (l1 l2 pre : list A) (e : A)
    (post : list A) :
  Forall (λ x, P x = false) l1 → P e = true →
  l1 ++ l2 = pre ++ e :: post →
  ∃ x, pre = l1 ++ x ∧ l2 = x ++ e :: post.
Proof.
  revert pre. induction l1 as [|a l1 IH]; intros pre H He Heq.
  - by exists pre.
  - apply Forall_cons in H as [Ha H].
    destruct pre as [|b pre]; cbn [app] in Heq.
    + injection Heq as -> _. congruence.
    + injection Heq as -> Heq.
      destruct (IH pre H He Heq) as (x & -> & ->). by exists x.
Qed.

Lemma elem_of_middle {A : Type} (l pre post : list A) (e : A) :
  l = pre ++ e :: post → e ∈ l.
Proof. intros ->. apply elem_of_app. right. apply list_elem_of_here. Qed.

Lemma diagnostic_quiet (t : list event) :
  Forall (λ e, diagnostic e = true) t →
  Forall (λ e, stream_event e = false) t.
Proof. intros H. eapply Forall_impl; [exact H|]. by intros []. Qed.

Lemma stream_event_write (e : event) :
  stream_event e = false → write_event e = false.
Proof. by destruct e. Qed.

(** An aborted run makes no call on the stream but, at most, the [open]
    that fails. *)
Lemma aborted_run_quiet (table : list (Z * list byte)) (argv : list string)
    (w : world) (r : outcome Z) :
  main_run table argv w r → value r = EXIT_FAILURE →
  no_write (events r) ∧
  ((∀ p, Open p false ∉ events r) → no_stream_event (events r)).
Proof.
  unfold no_write, no_stream_event.
  destruct 1 as [A | p A E | p f w' A E B S0 G0 | p f t A E B D N T
                | p f A E D R S O | p f A E D R S O W];
    cbn [value events]; intros V; try discriminate.
  - split; [|intros _]; by repeat constructor.
  - split; [|intros _]; by repeat constructor.
  - split; [|intros _]; by repeat constructor.
  - apply diagnostic_quiet in T.
    assert (Forall (λ e, stream_event e = false)
              (backup_log p ++ Call_validateExecutable p :: t
               ++ [Ret_validateExecutable false;
                   Cerr "Executable validation failed. Aborting."])) as Q.
    { apply Forall_app. split; [by repeat constructor|].
      constructor; [done|]. apply Forall_app.
      split; [done | by repeat constructor]. }
    split; [|done].
    eapply Forall_impl; [exact Q | apply stream_event_write].
  - split; [by repeat constructor|].
    intros H. destruct (H p). in_log.
Qed.

Lemma argv_too_short (argv : list string) (p : string) :
  (length argv < 2)%nat → argv !! 1%nat = Some p → False.
Proof. destruct argv as [|a [|b argv]]; cbn [length]; [done | done | lia]. Qed.

(** After the gates the backup holds the target as it was, whatever the
    patching stage does. *)
Lemma backup_survives_patching (table : list (Z * list byte)) (p : string)
    (f : file) (w : world) :
  files (final (stream.close (final (apply_patches table
    (World (files (backed_up p f w)) (Fstream (Some p) false false 0)
           (drop 1 (oracle w)))))))
    !! (p +:+ ".backup") = Some f.
Proof.
  destruct (close_events (final (apply_patches table
    (World (files (backed_up p f w)) (Fstream (Some p) false false 0)
           (drop 1 (oracle w)))))) as [_ ->].
  destruct (patch_stage_apply_patches table
    (World (files (backed_up p f w)) (Fstream (Some p) false false 0)
           (drop 1 (oracle w)))) as [[_ G] _].
  rewrite G.
  - apply lookup_insert_eq.
  - cbn [wowExe fd]. intros [= H]. symmetry in H. by apply backup_path_fresh in H.
Qed.

Lemma backup_log_behind (p : string) (x : list event) :
  Call_createBackup p ∈ backup_log p ++ x
  ∧ FsCopy p (p +:+ ".backup") true ∈ backup_log p ++ x
  ∧ Ret_createBackup (Some (p +:+ ".backup")) ∈ backup_log p ++ x.
Proof.
  split_and!; in_log.
Qed.

(** C3. Every [write] on the stream comes after [createBackup] has
    returned the backup path and [validateExecutable] has returned true,
    on a target of the expected size whose backup holds, at the end of the
    run, the target as it was.  In particular a target whose size is not
    the expected size makes the run fail with no write at all and with
    its bytes as they were. *)
Theorem writes_only_behind_the_gates
    (table : list (Z * list byte)) (argv : list string) (w : world) :
  (∀ pre e post,
     events (main_with table argv w) = pre ++ e :: post →
     write_event e = true →
     ∃ p f, argv !! 1%nat = Some p ∧ files w !! p = Some f ∧
       Ret_createBackup (Some (p +:+ ".backup")) ∈ pre ∧
       Ret_validateExecutable true ∈ pre ∧
       fsize f = kExpectedSize ∧
       files (final (main_with table argv w)) !! (p +:+ ".backup") = Some f)
  ∧ (∀ p f,
     argv !! 1%nat = Some p → files w !! p = Some f →
     fsize f ≠ kExpectedSize →
     value (main_with table argv w) = EXIT_FAILURE ∧
     no_write (events (main_with table argv w)) ∧
     files (final (main_with table argv w)) !! p = Some f).
Proof.
  pose proof (main_with_run table argv w) as R.
  pose proof (aborted_run_quiet table argv w _ R) as Q.
  split.
  - intros pre e post Heq He.
    destruct R as [A | p A E | p f w' A E B S0 G0 | p f t A E B D N T
                  | p f A E D R S O | p f A E D R S O W];
      cbn [value events final] in *.
    1-5: destruct (Q eq_refl) as [Q' _];
         apply elem_of_middle in Heq;
         apply (proj1 (Forall_forall _ _) Q') in Heq; congruence.
    exists p, f.
    rewrite !app_assoc, <- (app_assoc _ (events _)) in Heq.
    apply (split_behind write_event) in Heq as (x & -> & _);
      [| by repeat constructor | done].
    split_and!; [done | done | | | done | apply backup_survives_patching].
    all: rewrite <- !app_assoc; in_log.
  - intros p f A E S.
    destruct R as [A' | p' A' E' | p' f' w' A' E' B S0 G0 | p' f' t A' E' B D N T
                  | p' f' A' E' D R S' O | p' f' A' E' D R S' O W];
      cbn [value events final] in *.
    + destruct (argv_too_short argv p A' A).
    + congruence.
    + destruct (Q eq_refl) as [Q' _].
      assert (p' = p) as -> by congruence.
      split_and!; [done | done |].
      by rewrite G0 by apply target_not_backup.
    + destruct (Q eq_refl) as [Q' _].
      assert (p' = p) as -> by congruence.
      assert (f' = f) as -> by congruence.
      split_and!; [done | done | by apply backed_up_target].
    + assert (p' = p) as -> by congruence. congruence.
    + assert (p' = p) as -> by congruence. congruence.
Qed.

(** The first write of [main] on an executable of the expected size. *)
Lemma writes_only_behind_the_gates_witness :
  ∃ pre post,
    events (main ["patcher"; "Wow.exe"] (pristine_world []))
    = pre ++ Write [xc0] true :: post
    ∧ Ret_createBackup (Some ("Wow.exe" +:+ ".backup")) ∈ pre
    ∧ Ret_validateExecutable true ∈ pre.
Proof.
  exists (backup_log "Wow.exe" ++ validation_log "Wow.exe"
          ++ [Open "Wow.exe" true; Clear; Seekp 0x2A7 true]).
  eexists.
  eassert (events (main ["patcher"; "Wow.exe"] (pristine_world []))
           = (backup_log "Wow.exe" ++ validation_log "Wow.exe"
              ++ [Open "Wow.exe" true; Clear; Seekp 0x2A7 true])
             ++ Write [xc0] true :: _) as Heq.
  { unfold main. rewrite (pristine_patched patches [] eq_refl).
    cbn [drop events]. unfold patches at 1. rewrite apply_patches_cons.
    cbn [events].
    rewrite (writeBytesAt_ok 0x2A7 [xc0] "Wow.exe" pristine_exe);
      [| reflexivity | reflexivity
       | apply backed_up_target, pristine_lookup | discriminate | reflexivity ].
    cbn [events map]. unfold backup_log, validation_log. cbn [app].
    reflexivity. }
  split; [exact Heq|].
  destruct (proj1 (writes_only_behind_the_gates patches ["patcher"; "Wow.exe"]
                     (pristine_world [])) _ _ _ Heq eq_refl)
    as (p & f & A & _ & B & V & _).
  injection A as <-. split; [exact B | exact V].
Defined.

(** ** Backup and validation, in the order of [main] *)

(** C1, as stated, fails: the three-byte target fails validation, and
    the run leaves a backup of it where there was none; the log shows
    [createBackup] called, and returning, before the validator is. *)
Lemma backup_made_for_invalid_target :
  value (validateExecutable "Wow.exe" tiny_world) = false
  ∧ files tiny_world !! "Wow.exe.backup" = None
  ∧ files (final (main ["patcher"; "Wow.exe"] tiny_world)) !! "Wow.exe.backup"
    = Some tiny_exe
  ∧ events (main ["patcher"; "Wow.exe"] tiny_world)
    = [ Call_createBackup "Wow.exe";
        FsCopy "Wow.exe" "Wow.exe.backup" true;
        Cout "Backup created at: Wow.exe.backup";
        Ret_createBackup (Some "Wow.exe.backup");
        Call_validateExecutable "Wow.exe";
        IfstreamOpen "Wow.exe" true;
        Cerr "Validation failed: unexpected file size.";
        Ret_validateExecutable false;
        Cerr "Executable validation failed. Aborting." ].
Proof. vm_compute. by split_and!. Qed.

(** C1, amended.  [main] creates the backup before it validates: the
    validator is called only after [createBackup] has copied the target
    and returned the backup path, and the backup then holds the target as
    it was at the end of the run.  So a target that fails validation has
    its backup created or overwritten whenever the copy succeeds; the run
    then fails without a call on the stream and without a change to the
    target. *)
Theorem backup_precedes_validation
    (table : list (Z * list byte)) (argv : list string) (w : world) :
  (∀ pre q post,
     events (main_with table argv w) = pre ++ Call_validateExecutable q :: post →
     ∃ p f, argv !! 1%nat = Some p ∧ files w !! p = Some f ∧
       Call_createBackup p ∈ pre ∧
       FsCopy p (p +:+ ".backup") true ∈ pre ∧
       Ret_createBackup (Some (p +:+ ".backup")) ∈ pre ∧
       files (final (main_with table argv w)) !! (p +:+ ".backup") = Some f)
  ∧ (∀ p f,
     argv !! 1%nat = Some p → files w !! p = Some f →
     value (validateExecutable p w) = false →
     value (main_with table argv w) = EXIT_FAILURE ∧
     no_stream_event (events (main_with table argv w)) ∧
     files (final (main_with table argv w)) !! p = Some f ∧
     (is_Some (value (createBackup p w)) →
      files (final (main_with table argv w)) !! (p +:+ ".backup") = Some f)).
Proof.
  pose proof (main_with_run table argv w) as R.
  pose proof (aborted_run_quiet table argv w _ R) as Q.
  split.
  - intros pre q post Heq.
    destruct R as [A | p A E | p f w' A E B S0 G0 | p f t A E B D N T
                  | p f A E D R S O | p f A E D R S O W];
      cbn [value events final] in *.
    1-3: apply elem_of_middle in Heq; out_of_log Heq.
    all: exists p, f.
    all: apply (split_behind validator_call) in Heq as (x & -> & _);
           [| by repeat constructor | done].
    all: destruct (backup_log_behind p x) as (Hc & Hf & Hr).
    all: split_and!; [done | done | done | done | done |].
    + unfold backed_up. cbn [files]. apply lookup_insert_eq.
    + unfold backed_up. cbn [files]. apply lookup_insert_eq.
    + apply backup_survives_patching.
  - intros p f A E V.
    assert (readable f = true → fsize f = kExpectedSize → False) as Bad.
    { intros R' S'. by rewrite (validateExecutable_ok p f w E R' S') in V. }
    destruct R as [A' | p' A' E' | p' f' w' A' E' B S0 G0 | p' f' t A' E' B D N T
                  | p' f' A' E' D R S' O | p' f' A' E' D R S' O W];
      cbn [value events final] in *.
    + destruct (argv_too_short argv p A' A).
    + congruence.
    + assert (p' = p) as -> by congruence.
      destruct (Q eq_refl) as [_ Q'].
      split_and!; [done | apply Q'; intros p0 H; out_of_log H | |].
      * by rewrite G0 by apply target_not_backup.
      * rewrite B. by intros [? ?].
    + assert (p' = p) as -> by congruence.
      assert (f' = f) as -> by congruence.
      destruct (Q eq_refl) as [_ Q'].
      split_and!; [done | | by apply backed_up_target |].
      * apply Q'. intros p0 H.
        apply elem_of_app in H as [H|H]; [out_of_log H|].
        apply elem_of_cons in H as [H|H]; [done|].
        apply elem_of_app in H as [H|H]; [|out_of_log H].
        apply (proj1 (Forall_forall _ _) T) in H. done.
      * intros _. unfold backed_up. cbn [files]. apply lookup_insert_eq.
    + assert (p' = p) as -> by congruence.
      assert (f' = f) as -> by congruence. by destruct Bad.
    + assert (p' = p) as -> by congruence.
      assert (f' = f) as -> by congruence. by destruct Bad.
Qed.

(** The three-byte target: validation fails, the backup is there. *)
Lemma backup_precedes_validation_witness :
  value (main ["patcher"; "Wow.exe"] tiny_world) = EXIT_FAILURE
  ∧ files (final (main ["patcher"; "Wow.exe"] tiny_world))
      !! ("Wow.exe" +:+ ".backup")
    = Some tiny_exe.
Proof.
  destruct (proj2 (backup_precedes_validation patches ["patcher"; "Wow.exe"]
                     tiny_world) "Wow.exe" tiny_exe)
    as (V & _ & _ & B);
    [reflexivity | apply lookup_singleton_eq | vm_compute; reflexivity |].
  split; [exact V|]. apply B. vm_compute. by eexists.
Defined.

(** ** A patch set of one entry *)

(** C8. On a target of the expected size, with the gates passing and no
    fault of the device, the patch set of the single entry
    [(0x2A7, [0xC0])] leaves the byte at offset 0x2A7 equal to 0xC0 and
    every other byte of the file, and its length, as they were. *)
Theorem single_entry_patch
    (argv : list string) (p : string) (f : file)
    (dir : gmap string file) (o : list bool) :
  argv !! 1%nat = Some p →
  dir !! p = Some f → readable f = true → writable f = true →
  fsize f = kExpectedSize →
  (∀ g, dir !! (p +:+ ".backup") = Some g → writable g = true) →
  faultless 3 o = true →
  value (main_with [(0x2A7, [xc0])] argv (boot dir o)) = EXIT_SUCCESS
  ∧ ∃ f',
      files (final (main_with [(0x2A7, [xc0])] argv (boot dir o))) !! p
      = Some f'
      ∧ length (data f') = length (data f)
      ∧ data f' !! Z.to_nat 0x2A7 = Some xc0
      ∧ ∀ i, i ≠ Z.to_nat 0x2A7 → data f' !! i = data f !! i.
Proof.
  intros A E R W S G D. apply faultless_S in D as [D1 D2].
  assert (Z.to_nat 0x2A7 < length (data f))%nat as In.
  { unfold fsize, kExpectedSize in S. lia. }
  rewrite (main_with_patched [(0x2A7, [xc0])] argv p f (boot dir o)
             A E R W S G D1 eq_refl).
  cbn [value final apply_patches oracle boot]. run.
  rewrite (writeBytesAt_ok 0x2A7 [xc0] p f
             (files (backed_up p f (boot dir o)))
             (Fstream (Some p) false false 0) (drop 1 o)
             eq_refl eq_refl (backed_up_target p f (boot dir o) E));
    [| discriminate | exact D2].
  run. split; [done|].
  exists (with_data f (<[Z.to_nat 0x2A7 := xc0]> (data f))).
  split_and!.
  - match goal with
    | |- files (final (stream.close ?w)) !! _ = _ =>
        destruct (close_events w) as [_ ->]
    end.
    cbn [files store_seq]. rewrite (store_at_in_range _ _ _ In).
    apply lookup_insert_eq.
  - cbn [data with_data]. apply length_insert.
  - cbn [data with_data]. by apply list_lookup_insert_eq.
  - intros i Hi. cbn [data with_data]. by apply list_lookup_insert_ne.
Qed.

(** The single entry applied to an executable of the expected size. *)
Lemma single_entry_patch_witness :
  value (main_with [(0x2A7, [xc0])] ["patcher"; "Wow.exe"] (pristine_world []))
  = EXIT_SUCCESS
  ∧ ∃ f',
      files (final (main_with [(0x2A7, [xc0])] ["patcher"; "Wow.exe"]
                      (pristine_world []))) !! "Wow.exe"
      = Some f'
      ∧ data f' !! Z.to_nat 0x2A7 = Some xc0.
Proof.
  destruct (single_entry_patch ["patcher"; "Wow.exe"] "Wow.exe" pristine_exe
              {[ "Wow.exe" := pristine_exe ]} [])
    as (V & f' & F & _ & B & _);
    [ reflexivity | apply lookup_singleton_eq | reflexivity | reflexivity
    | apply pristine_size | apply (pristine_no_backup []) | reflexivity | ].
  split; [exact V|]. exists f'. split; [exact F | exact B].
Defined.


(** ** What the table leaves in a file *)

Lemma store_seq_length (bs l : list byte) (pos : Z) :
  0 ≤ pos → pos + Z.of_nat (length bs) ≤ Z.of_nat (length l) →
  length (store_seq l pos bs) = length l.
Proof.
  intros P H. rewrite store_seq_in_range by lia.
  rewrite !length_app, length_take, length_drop. lia.
Qed.

Lemma store_seq_lookup (bs l : list byte) (pos i : Z) :
  0 ≤ pos → pos + Z.of_nat (length bs) ≤ Z.of_nat (length l) → 0 ≤ i →
  store_seq l pos bs !! Z.to_nat i
  = if covers (pos, bs) i then bs !! Z.to_nat (i - pos) else l !! Z.to_nat i.
Proof.
  intros P H I. rewrite store_seq_in_range by lia.
  unfold covers. cbn [fst snd].
  destruct (pos <=? i) eqn:A; cbn [andb].
  - apply Z.leb_le in A.
    rewrite lookup_app_r by (rewrite length_take; lia).
    rewrite length_take_le by lia.
    replace (Z.to_nat i - Z.to_nat pos)%nat with (Z.to_nat (i - pos)) by lia.
    destruct (i <? pos + Z.of_nat (length bs)) eqn:B.
    + apply Z.ltb_lt in B. by rewrite lookup_app_l by lia.
    + apply Z.ltb_ge in B. rewrite lookup_app_r by lia.
      rewrite lookup_drop. f_equal. lia.
  - apply Z.leb_gt in A.
    rewrite lookup_app_l by (rewrite length_take; lia).
    by rewrite lookup_take_lt by lia.
Qed.

Lemma in_range_cons (size : Z) (e : Z * list byte) (table : list (Z * list byte)) :
  in_range size (e :: table) = true →
  0 ≤ e.1 ∧ e.1 + Z.of_nat (length e.2) ≤ size ∧ in_range size table = true.
Proof.
  unfold in_range. cbn [forallb]. intros H.
  apply andb_prop in H as [H1 H2]. apply andb_prop in H1 as [H0 H1].
  apply Z.leb_le in H0, H1. done.
Qed.

Lemma apply_table_length (table : list (Z * list byte)) :
  ∀ l, in_range (Z.of_nat (length l)) table = true →
       length (apply_table table l) = length l.
Proof.
  induction table as [|e table IH]; intros l H; [done|].
  apply in_range_cons in H as (P & R & H).
  cbn [apply_table fold_left]. fold (apply_table table (store_seq l e.1 e.2)).
  rewrite IH; rewrite store_seq_length by done; done.
Qed.

Lemma apply_table_overlay (table : list (Z * list byte)) :
  ∀ l i, in_range (Z.of_nat (length l)) table = true → 0 ≤ i →
         apply_table table l !! Z.to_nat i = overlay table i (l !! Z.to_nat i).
Proof.
  induction table as [|e table IH]; intros l i H I; [done|].
  apply in_range_cons in H as (P & R & H).
  cbn [apply_table overlay fold_left].
  fold (apply_table table (store_seq l e.1 e.2)).
  fold (overlay table i
          (if covers e i then e.2 !! Z.to_nat (i - e.1) else l !! Z.to_nat i)).
  rewrite IH by (rewrite ?store_seq_length; done).
  rewrite store_seq_lookup by done. by destruct e.
Qed.

Lemma overlay_snoc (table : list (Z * list byte)) (e : Z * list byte)
    (i : Z) (init : option byte) :
  overlay (table ++ [e]) i init
  = if covers e i then e.2 !! Z.to_nat (i - e.1) else overlay table i init.
Proof. unfold overlay. by rewrite fold_left_app. Qed.

Lemma overlay_outside (table : list (Z * list byte)) (i : Z) (init : option byte) :
  Forall (λ e, covers e i = false) table → overlay table i init = init.
Proof.
  induction table as [|e table IH] using rev_ind; [done|].
  intros H. apply Forall_app in H as [H1 H2]. apply Forall_cons in H2 as [H2 _].
  rewrite overlay_snoc, H2. by apply IH.
Qed.

Lemma overlay_twice (table : list (Z * list byte)) (i : Z) (init : option byte) :
  overlay table i (overlay table i init) = overlay table i init.
Proof.
  induction table as [|e table IH] using rev_ind; [done|].
  rewrite !overlay_snoc. destruct (covers e i); [done | apply IH].
Qed.

Lemma apart_covers (e e' : Z * list byte) (i : Z) :
  apart e e' = true → covers e i = true → covers e' i = false.
Proof.
  unfold apart, covers. intros A C.
  apply andb_prop in C as [C1 C2]. apply Z.leb_le in C1. apply Z.ltb_lt in C2.
  apply orb_prop in A as [A|A]; apply Z.leb_le in A.
  - apply andb_false_intro1. apply Z.leb_gt. lia.
  - apply andb_false_intro2. apply Z.ltb_ge. lia.
Qed.

Lemma apart_sym (e e' : Z * list byte) : apart e e' = apart e' e.
Proof. unfold apart. apply orb_comm. Qed.

(** In a table of disjoint entries the byte an entry writes is the byte
    the table leaves. *)
Lemma overlay_disjoint (table : list (Z * list byte)) (e : Z * list byte)
    (i : Z) (init : option byte) :
  disjoint table = true → e ∈ table → covers e i = true →
  overlay table i init = e.2 !! Z.to_nat (i - e.1).
Proof.
  revert init. induction table as [|e' table IH]; intros init D H C.
  - by apply elem_of_nil in H.
  - cbn [disjoint] in D. apply andb_prop in D as [D1 D2].
    cbn [overlay fold_left].
    fold (overlay table i
            (if covers e' i then e'.2 !! Z.to_nat (i - e'.1) else init)).
    apply elem_of_cons in H as [->|H].
    + rewrite C. apply overlay_outside.
      apply Forall_forall. intros e'' H''.
      apply (apart_covers e'); [|done].
      by apply (proj1 (forallb_forall _ _) D1), list_elem_of_In.
    + by apply IH.
Qed.

(** ** A patching stage without a fault *)

Lemma faultless_add (a b : nat) (o : list bool) :
  faultless (a + b) o = true →
  faultless a o = true ∧ faultless b (drop a o) = true.
Proof.
  revert o. induction a as [|a IH]; intros o H.
  - by rewrite drop_0.
  - cbn [Nat.add] in H. apply faultless_S in H as [H1 H2].
    destruct (IH (drop 1 o) H2) as [H3 H4]. rewrite drop_drop in H4.
    split; [|done].
    destruct o as [|b' o]; [apply faultless_nil|].
    rewrite faultless_cons. destruct b'; [|done]. exact H3.
Qed.

Lemma apply_patches_app (t1 t2 : list (Z * list byte)) (w : world) :
  apply_patches (t1 ++ t2) w =
    Outcome tt (final (apply_patches t2 (final (apply_patches t1 w))))
      (events (apply_patches t1 w)
       ++ events (apply_patches t2 (final (apply_patches t1 w)))).
Proof.
  revert w. induction t1 as [|[pos bytes] t1 IH]; intros w.
  - cbn [app apply_patches]. run. by destruct (apply_patches t2 w) as [[] ? ?].
  - cbn [app]. rewrite !apply_patches_cons, IH. cbn [final events].
    by rewrite app_assoc.
Qed.

(** Without a fault the patching stage stores the table in the file the
    stream is bound to, entry after entry. *)
Lemma apply_patches_ok (table : list (Z * list byte)) :
  ∀ (p : string) (f : file) (dir : gmap string file) (s : fstream) (o : list bool),
  fail s = false → fd s = Some p → dir !! p = Some f →
  Forall (λ e, 0 ≤ e.1) table →
  faultless (device_ops table) o = true →
  apply_patches table (World dir s o) =
    Outcome tt
      (World (<[p := with_data f (apply_table table (data f))]> dir)
             (set_ppos s (end_pos table (ppos s)))
             (drop (device_ops table) o))
      (patch_log table).
Proof.
  induction table as [|[pos bytes] table IH]; intros p f dir s o F O E P D.
  - cbn [apply_patches apply_table fold_left device_ops fold_right end_pos
         patch_log flat_map]. run.
    by rewrite with_data_id, (insert_id dir p f E), set_ppos_id, drop_0.
  - apply Forall_cons in P as [P0 P].
    cbn [device_ops fold_right] in D. fold (device_ops table) in D.
    change (S (length (pos, bytes).2 + device_ops table))
      with (S (length bytes) + device_ops table)%nat in D.
    apply faultless_add in D as [D1 D2].
    rewrite apply_patches_cons.
    rewrite (writeBytesAt_ok pos bytes p f dir s o F O E P0 D1).
    cbn [final events].
    rewrite (IH p (with_data f (store_seq (data f) pos bytes)));
      [| done | done | apply lookup_insert_eq | done | done].
    rewrite insert_insert_eq, drop_drop. reflexivity.
Qed.

Lemma in_range_nonneg (size : Z) (table : list (Z * list byte)) :
  in_range size table = true → Forall (λ e, 0 ≤ e.1) table.
Proof.
  induction table as [|e table IH]; intros H; [constructor|].
  apply in_range_cons in H as (P & _ & H). constructor; [done | by apply IH].
Qed.

(** The file of the stream after a fault-free patching stage. *)
Lemma patched_file (table : list (Z * list byte)) (p : string) (f : file)
    (dir : gmap string file) (s : fstream) (o : list bool) :
  fail s = false → fd s = Some p → dir !! p = Some f →
  in_range (fsize f) table = true →
  faultless (device_ops table) o = true →
  files (final (apply_patches table (World dir s o))) !! p
  = Some (with_data f (apply_table table (data f))).
Proof.
  intros F O E R D.
  rewrite (apply_patches_ok table p f dir s o F O E (in_range_nonneg _ _ R) D).
  cbn [final files]. apply lookup_insert_eq.
Qed.

Section FaultFreePatching.

Context (table : list (Z * list byte)) (p : string) (f : file)
        (dir : gmap string file) (s : fstream) (o : list bool).
Hypothesis stream_good : fail s = false.
Hypothesis stream_bound : fd s = Some p.
Hypothesis target : dir !! p = Some f.
Hypothesis no_fault : faultless (device_ops table) o = true.

(** X1. Without a fault the patching stage leaves the file with its
    length, and with every byte that no entry of the table writes. *)
Theorem apply_patches_keeps_uncovered_bytes :
  in_range (fsize f) table = true →
  ∃ f', files (final (apply_patches table (World dir s o))) !! p = Some f'
        ∧ length (data f') = length (data f)
        ∧ ∀ i, 0 ≤ i → Forall (λ e, covers e i = false) table →
               data f' !! Z.to_nat i = data f !! Z.to_nat i.
Proof.
  intros R. eexists. split; [by apply patched_file|].
  cbn [data with_data]. split; [by apply apply_table_length|].
  intros i I U. rewrite apply_table_overlay by done. by apply overlay_outside.
Qed.

(** X3. In a table whose entries write no position in common, every
    entry's bytes are in the file after a fault-free patching stage. *)
Theorem apply_patches_disjoint_entries :
  in_range (fsize f) table = true → disjoint table = true →
  ∃ f', files (final (apply_patches table (World dir s o))) !! p = Some f'
        ∧ ∀ pos bytes k b, (pos, bytes) ∈ table → bytes !! k = Some b →
            data f' !! (Z.to_nat pos + k)%nat = Some b.
Proof.
  intros R D. eexists. split; [by apply patched_file|].
  cbn [data with_data]. intros pos bytes k b H K.
  assert (0 ≤ pos) as P.
  { apply in_range_nonneg in R.
    by apply (proj1 (Forall_forall _ _) R (pos, bytes)). }
  apply lookup_lt_Some in K as L.
  replace (Z.to_nat pos + k)%nat with (Z.to_nat (pos + Z.of_nat k)) by lia.
  rewrite apply_table_overlay by (done || lia).
  rewrite (overlay_disjoint table (pos, bytes)); [| done | done |].
  - cbn [fst snd]. by replace (Z.to_nat (pos + Z.of_nat k - pos)) with k by lia.
  - unfold covers. cbn [fst snd]. apply andb_true_intro.
    split; [apply Z.leb_le | apply Z.ltb_lt]; lia.
Qed.

(** X4. Patching is idempotent: a second fault-free patching stage with
    the same table leaves the file as the first left it. *)
Theorem apply_patches_twice (s' : fstream) (o' : list bool) :
  in_range (fsize f) table = true →
  fail s' = false → fd s' = Some p →
  faultless (device_ops table) o' = true →
  files (final (apply_patches table
    (World (files (final (apply_patches table (World dir s o)))) s' o'))) !! p
  = files (final (apply_patches table (World dir s o))) !! p.
Proof.
  intros R F' O' D'.
  rewrite (patched_file table p f dir s o) by done.
  assert (fsize (with_data f (apply_table table (data f))) = fsize f) as L.
  { unfold fsize. cbn [data with_data]. by rewrite apply_table_length. }
  rewrite (patched_file table p (with_data f (apply_table table (data f))));
    [| done | done | by apply patched_file | by rewrite L | done].
  f_equal. unfold with_data. cbn [data readable writable]. f_equal.
  apply list_eq. intros n.
  replace n with (Z.to_nat (Z.of_nat n)) by lia.
  rewrite !apply_table_overlay by (rewrite ?apply_table_length; done || lia).
  apply overlay_twice.
Qed.

End FaultFreePatching.

(** X2. Where entries overlap the later one wins: after a fault-free
    patching stage every byte of the last entry of the table is in the
    file, whatever the entries before it wrote there. *)
Theorem apply_patches_last_entry_wins
    (table : list (Z * list byte)) (pos : Z) (bytes : list byte)
    (p : string) (f : file) (dir : gmap string file) (s : fstream)
    (o : list bool) :
  fail s = false → fd s = Some p → dir !! p = Some f →
  faultless (device_ops (table ++ [(pos, bytes)])) o = true →
  in_range (fsize f) (table ++ [(pos, bytes)]) = true →
  ∃ f', files (final (apply_patches (table ++ [(pos, bytes)]) (World dir s o)))
          !! p = Some f'
        ∧ ∀ k b, bytes !! k = Some b →
            data f' !! (Z.to_nat pos + k)%nat = Some b.
Proof.
  intros F O E D R. eexists. split; [by apply patched_file|].
  cbn [data with_data]. intros k b K.
  assert (0 ≤ pos) as P.
  { apply in_range_nonneg in R. apply Forall_app in R as [_ R].
    by apply Forall_cons in R as [R _]. }
  apply lookup_lt_Some in K as L.
  replace (Z.to_nat pos + k)%nat with (Z.to_nat (pos + Z.of_nat k)) by lia.
  rewrite apply_table_overlay by (done || lia).
  rewrite overlay_snoc.
  assert (covers (pos, bytes) (pos + Z.of_nat k) = true) as ->.
  { unfold covers. cbn [fst snd]. apply andb_true_intro.
    split; [apply Z.leb_le | apply Z.ltb_lt]; lia. }
  cbn [fst snd]. by replace (Z.to_nat (pos + Z.of_nat k - pos)) with k by lia.
Qed.

Lemma open_world_target (o : list bool) :
  files (open_world o) !! "f.bin" = Some small_file.
Proof. apply lookup_singleton_eq. Qed.

(** Position 1 of the four-byte file, written by both entries of
    [overlapping_table], holds the byte of the second. *)
Lemma apply_patches_last_entry_wins_witness :
  ∃ f', files (final (apply_patches overlapping_table (open_world []))) !! "f.bin"
        = Some f'
        ∧ data f' !! 1%nat = Some xcc.
Proof.
  destruct (apply_patches_last_entry_wins [(0, [xaa; xbb])] 1 [xcc] "f.bin"
              small_file {[ "f.bin" := small_file ]}
              (Fstream (Some "f.bin") false false 0) [])
    as (f' & E & B);
    [ reflexivity | reflexivity | apply lookup_singleton_eq | reflexivity
    | reflexivity | ].
  exists f'. split; [exact E|]. exact (B 0%nat xcc eq_refl).
Defined.

(** Position 3 of the four-byte file is written by no entry of
    [overlapping_table]. *)
Lemma apply_patches_keeps_uncovered_bytes_witness :
  ∃ f', files (final (apply_patches overlapping_table (open_world []))) !! "f.bin"
        = Some f'
        ∧ length (data f') = 4%nat
        ∧ data f' !! 3%nat = Some x03.
Proof.
  destruct (apply_patches_keeps_uncovered_bytes overlapping_table "f.bin"
              small_file {[ "f.bin" := small_file ]}
              (Fstream (Some "f.bin") false false 0) [])
    as (f' & E & L & B);
    [ reflexivity | reflexivity | apply lookup_singleton_eq | reflexivity
    | reflexivity | ].
  exists f'. split; [exact E|]. split; [exact L|].
  apply (B 3); [discriminate | by repeat constructor].
Defined.

(** Two entries of the four-byte file that do not overlap. *)
Lemma apply_patches_disjoint_entries_witness :
  ∃ f', files (final (apply_patches [(0, [xaa; xbb]); (3, [xcc])]
                        (open_world []))) !! "f.bin"
        = Some f'
        ∧ data f' !! 1%nat = Some xbb.
Proof.
  destruct (apply_patches_disjoint_entries [(0, [xaa; xbb]); (3, [xcc])] "f.bin"
              small_file {[ "f.bin" := small_file ]}
              (Fstream (Some "f.bin") false false 0) [])
    as (f' & E & B);
    [ reflexivity | reflexivity | apply lookup_singleton_eq | reflexivity
    | reflexivity | reflexivity | ].
  exists f'. split; [exact E|].
  apply (B 0 [xaa; xbb] 1%nat xbb); [apply list_elem_of_here | reflexivity].
Defined.

Lemma apply_patches_twice_witness :
  files (final (apply_patches overlapping_table
    (World (files (final (apply_patches overlapping_table (open_world []))))
           (Fstream (Some "f.bin") false false 0) []))) !! "f.bin"
  = files (final (apply_patches overlapping_table (open_world []))) !! "f.bin".
Proof.
  apply (apply_patches_twice overlapping_table "f.bin" small_file
           {[ "f.bin" := small_file ]} (Fstream (Some "f.bin") false false 0) []);
    [ reflexivity | reflexivity | apply lookup_singleton_eq | reflexivity
    | reflexivity | reflexivity | reflexivity | reflexivity ].
Defined.

(** ** The other byte writers *)




Lemma sputn_ok (bs : list byte) :
  ∀ (p : string) (f : file) (dir : gmap string file) (s : fstream) (o : list bool),
  fd s = Some p → dir !! p = Some f → faultless (length bs) o = true →
  stream.sputn bs (World dir s o) =
    Outcome true
      (World (<[p := with_data f (store_seq (data f) (ppos s) bs)]> dir)
             (set_ppos s (ppos s + Z.of_nat (length bs)))
             (drop (length bs) o))
      [].
Proof.
  induction bs as [|b bs IH]; intros p f dir s o O E D.
  - cbn [stream.sputn length store_seq]. run.
    by rewrite with_data_id, (insert_id dir p f E), Z.add_0_r, set_ppos_id, drop_0.
  - apply faultless_S in D as [D1 D2].
    cbn [stream.sputn]. unfold stream.sputc. run. rewrite O. run_with E.
    run_with (foresee_ok dir s o D1). run_with (device_ok dir s o D1).
    erewrite IH; [| done | apply lookup_insert_eq | exact D2].
    run. rewrite insert_insert_eq, drop_drop.
    cbn [data with_data ppos set_ppos store_seq readable writable
         fd failbit badbit].
    assert (ppos s + 1 + Z.of_nat (length bs)
            = ppos s + Z.of_nat (S (length bs))) as -> by lia.
    reflexivity.
Qed.

Lemma writeRepeatedBytesAt_ok (pos : Z) (v : byte) (n : nat) (p : string)
    (f : file) (dir : gmap string file) (s : fstream) (o : list bool) :
  fail s = false → fd s = Some p → dir !! p = Some f → 0 ≤ pos →
  faultless (S n) o = true →
  writeRepeatedBytesAt pos v n (World dir s o) =
    Outcome tt
      (World (<[p := with_data f (store_seq (data f) pos (replicate n v))]> dir)
             (set_ppos s (pos + Z.of_nat n)) (drop (S n) o))
      [Clear; Seekp pos true; Write (replicate n v) true].
Proof.
  intros F O E P D. apply faultless_S in D as [D1 D2].
  unfold writeRepeatedBytesAt, handleStreamError.
  run_with F. rewrite clear_run. run. rewrite (clear_good _ F).
  rewrite (seekp_ok pos dir s o F (is_open_fd s p O) P D1).
  run. rewrite fail_set_ppos, F. run.
  unfold stream.write. run. rewrite fail_set_ppos, F. run.
  rewrite (sputn_ok (replicate n v) p f dir (set_ppos s pos) (drop 1 o));
    [| done | done | by rewrite length_replicate].
  run. rewrite !fail_set_ppos, F. run.
  by rewrite length_replicate, drop_drop.
Qed.

(** X6. Without a fault [writeRepeatedBytesAt pos v n] leaves the world
    that [writeBytesAt] leaves for the vector of [n] copies of [v]: the
    same files, the same stream, the same answers of the device left.
    For [n = 0] that is the world with nothing but the put position
    changed. *)
Theorem writeRepeatedBytesAt_as_writeBytesAt (pos : Z) (v : byte) (n : nat)
    (p : string) (f : file) (dir : gmap string file) (s : fstream)
    (o : list bool) :
  fail s = false → fd s = Some p → dir !! p = Some f → 0 ≤ pos →
  faultless (S n) o = true →
  final (writeRepeatedBytesAt pos v n (World dir s o))
  = final (writeBytesAt pos (replicate n v) (World dir s o)).
Proof.
  intros F O E P D.
  rewrite (writeRepeatedBytesAt_ok pos v n p f dir s o F O E P D).
  rewrite (writeBytesAt_ok pos (replicate n v) p f dir s o F O E P)
    by (by rewrite length_replicate).
  cbn [final]. by rewrite length_replicate.
Qed.

Lemma writeRepeatedBytesAt_as_writeBytesAt_witness :
  final (writeRepeatedBytesAt 1 x90 2 (open_world []))
  = final (writeBytesAt 1 [x90; x90] (open_world [])).
Proof.
  apply (writeRepeatedBytesAt_as_writeBytesAt 1 x90 2 "f.bin" small_file
           {[ "f.bin" := small_file ]} (Fstream (Some "f.bin") false false 0) []);
    [ reflexivity | reflexivity | apply lookup_singleton_eq | discriminate
    | reflexivity ].
Defined.

(** ** More of the backup manager *)

(** X7. A successful [createBackup] returns the backup path and leaves
    at that path the file of the target, in place of any backup that was
    there; the target, every other file and the stream are as they
    were. *)
Theorem createBackup_copies (p : string) (f : file) (w : world) :
  files w !! p = Some f → readable f = true →
  (∀ g, files w !! (p +:+ ".backup") = Some g → writable g = true) →
  faultless 1 (oracle w) = true →
  value (createBackup p w) = Some (p +:+ ".backup")
  ∧ files (final (createBackup p w)) !! (p +:+ ".backup") = Some f
  ∧ (∀ q, q ≠ p +:+ ".backup" →
          files (final (createBackup p w)) !! q = files w !! q)
  ∧ wowExe (final (createBackup p w)) = wowExe w.
Proof.
  intros E R G D. rewrite (createBackup_ok p f w E R G D).
  cbn [value final backed_up files wowExe].
  split_and!; [done | apply lookup_insert_eq | | done].
  intros q Hq. by apply lookup_insert_ne.
Qed.

(** The older backup of [backed_world] is replaced. *)
Lemma createBackup_copies_witness :
  files (final (createBackup "Wow.exe" (backed_world [])))
    !! ("Wow.exe" +:+ ".backup")
  = Some tiny_exe.
Proof.
  destruct (createBackup_copies "Wow.exe" tiny_exe (backed_world []))
    as (_ & B & _);
    [ vm_compute; reflexivity | reflexivity | | reflexivity | exact B ].
  intros g. vm_compute. by intros [= <-].
Defined.

(** X8. A [createBackup] that returns nothing has logged the failure,
    with the text of the exception, and has changed neither the target
    nor any other file but, at most, the one at the backup path, which a
    copy cut short may have left truncated; the stream is as it was. *)
Theorem createBackup_failure_keeps_other_files (p : string) (w : world) :
  value (createBackup p w) = None →
  events (createBackup p w) = failed_backup_log p
  ∧ (∀ q, q ≠ p +:+ ".backup" →
          files (final (createBackup p w)) !! q = files w !! q)
  ∧ wowExe (final (createBackup p w)) = wowExe w.
Proof.
  destruct (createBackup_cases p w)
    as [(f & _ & _ & _ & ->) | (w' & -> & S & G)];
    cbn [value final events]; [discriminate | done].
Qed.

(** The device refuses the copy after one byte: the target is as it
    was. *)
Lemma createBackup_failure_keeps_other_files_witness :
  files (final (createBackup "Wow.exe"
                  (boot {[ "Wow.exe" := tiny_exe ]} [false; true])))
    !! "Wow.exe"
  = Some tiny_exe.
Proof.
  destruct (createBackup_failure_keeps_other_files "Wow.exe"
              (boot {[ "Wow.exe" := tiny_exe ]} [false; true])) as (_ & F & _);
    [vm_compute; reflexivity |].
  rewrite F; [apply lookup_singleton_eq | discriminate].
Defined.

Lemma remove_refused (p : string) (dir : gmap string file) (s : fstream)
    (o : list bool) :
  fs.remove p (World dir s (false :: o))
  = Outcome Throws (World dir s o) [FsRemove p false].
Proof. unfold fs.remove. by run_with (device_fault dir s o). Qed.

Lemma rename_refused (src dst : string) (f : file) (dir : gmap string file)
    (s : fstream) (o : list bool) :
  dir !! src = Some f →
  fs.rename src dst (World dir s (false :: o))
  = Outcome Throws (World dir s o) [FsRename src dst false].
Proof.
  intros E. unfold fs.rename. run_with (device_fault dir s o). by run_with E.
Qed.

(** X9. When the delete of [restoreBackup] is refused, the call logs the
    failure, with the text of the exception, and returns false; no file
    has changed: target and backup are both there. *)
Theorem restoreBackup_delete_refused (p : string) (b : file)
    (dir : gmap string file) (s : fstream) (o : list bool) :
  dir !! (p +:+ ".backup") = Some b →
  value (restoreBackup p (World dir s (false :: o))) = false
  ∧ files (final (restoreBackup p (World dir s (false :: o)))) = dir
  ∧ events (restoreBackup p (World dir s (false :: o)))
    = [FsRemove p false; Cerr_what "Failed to restore backup: "].
Proof.
  intros E. unfold restoreBackup, fs.exists_. run_with E.
  rewrite remove_refused. by run.
Qed.

Lemma restoreBackup_delete_refused_witness :
  value (restoreBackup "Wow.exe" (backed_world [false])) = false
  ∧ files (final (restoreBackup "Wow.exe" (backed_world [false])))
      !! "Wow.exe" = Some tiny_exe.
Proof.
  destruct (restoreBackup_delete_refused "Wow.exe" (File [x00] true true)
              (<["Wow.exe" := tiny_exe]>
                 {[ "Wow.exe.backup" := File [x00] true true ]})
              fresh_stream [])
    as (V & F & _); [vm_compute; reflexivity |].
  split; [exact V|].
  unfold backed_world, boot. rewrite F. apply lookup_insert_eq.
Defined.

(** X10. The restore is not atomic: when the delete succeeds and the
    rename is refused, the call returns false with the target gone and
    the backup still at its path. *)
Theorem restoreBackup_rename_refused (p : string) (b : file)
    (dir : gmap string file) (s : fstream) (o : list bool) :
  dir !! (p +:+ ".backup") = Some b →
  value (restoreBackup p (World dir s (true :: false :: o))) = false
  ∧ files (final (restoreBackup p (World dir s (true :: false :: o)))) !! p
    = None
  ∧ files (final (restoreBackup p (World dir s (true :: false :: o))))
      !! (p +:+ ".backup") = Some b.
Proof.
  intros E. unfold restoreBackup, fs.exists_. run_with E.
  destruct (remove_ok p dir s (true :: false :: o) eq_refl) as [r ->]. run.
  cbn [drop].
  assert (delete p dir !! (p +:+ ".backup") = Some b) as E'.
  { by rewrite lookup_delete_ne by (intros ?; by eapply backup_path_fresh). }
  rewrite (rename_refused (p +:+ ".backup") p b (delete p dir) s o E'). run.
  split_and!; [done | apply lookup_delete_eq | done].
Qed.

Lemma restoreBackup_rename_refused_witness :
  files (final (restoreBackup "Wow.exe" (backed_world [true; false])))
    !! "Wow.exe" = None.
Proof.
  destruct (restoreBackup_rename_refused "Wow.exe" (File [x00] true true)
              (<["Wow.exe" := tiny_exe]>
                 {[ "Wow.exe.backup" := File [x00] true true ]})
              fresh_stream [])
    as (_ & F & _); [vm_compute; reflexivity | exact F].
Defined.

(** A restore that nothing refuses. *)
Lemma restoreBackup_ok (p : string) (b : file) (w : world) :
  files w !! (p +:+ ".backup") = Some b →
  faultless 2 (oracle w) = true →
  value (restoreBackup p w) = true
  ∧ files (final (restoreBackup p w)) !! p = Some b
  ∧ files (final (restoreBackup p w)) !! (p +:+ ".backup") = None.
Proof.
  intros E D. apply faultless_S in D as [D1 D2].
  destruct w as [dir s o]. cbn [files oracle] in *.
  unfold restoreBackup, fs.exists_. run_with E.
  destruct (remove_ok p dir s o D1) as [r ->]. run.
  rewrite (rename_ok (p +:+ ".backup") p b (delete p dir) s (drop 1 o));
    [| by rewrite lookup_delete_ne by (intros ?; by eapply backup_path_fresh)
     | done ].
  run. split_and!; [done | apply lookup_insert_eq |].
  rewrite lookup_insert_ne by (intros ?; by eapply backup_path_fresh).
  apply lookup_delete_eq.
Qed.

(** ** Whole runs without a fault *)

Lemma apply_table_twice (table : list (Z * list byte)) (l : list byte) :
  in_range (Z.of_nat (length l)) table = true →
  apply_table table (apply_table table l) = apply_table table l.
Proof.
  intros R. apply list_eq. intros n.
  replace n with (Z.to_nat (Z.of_nat n)) by lia.
  rewrite !apply_table_overlay by (rewrite ?apply_table_length; done || lia).
  apply overlay_twice.
Qed.

Lemma close_run (p : string) (dir : gmap string file) (s : fstream)
    (o : list bool) :
  fd s = Some p →
  stream.close (World dir s o)
  = Outcome tt (World dir (Fstream None (failbit s) (badbit s) (ppos s)) o)
      [Close].
Proof. intros O. unfold stream.close. run. rewrite O. by run. Qed.

Lemma close_closed (w : world) :
  is_open (wowExe (final (stream.close w))) = false.
Proof.
  unfold stream.close. run.
  destruct (fd (wowExe w)) as [q|] eqn:O; run; [done|].
  unfold is_open, setstate_failbit. cbn [fd]. by rewrite O.
Qed.

(** The run of [main] on a target of the expected size when nothing is
    refused. *)
Lemma main_with_fault_free (table : list (Z * list byte)) (argv : list string)
    (p : string) (f : file) (w : world) :
  argv !! 1%nat = Some p →
  files w !! p = Some f → readable f = true → writable f = true →
  fsize f = kExpectedSize →
  (∀ g, files w !! (p +:+ ".backup") = Some g → writable g = true) →
  is_open (wowExe w) = false →
  Forall (λ e, 0 ≤ e.1) table →
  faultless (S (device_ops table)) (oracle w) = true →
  main_with table argv w =
    Outcome EXIT_SUCCESS
      (World (<[p := with_data f (apply_table table (data f))]>
                (<[p +:+ ".backup" := f]> (files w)))
             (Fstream None false false (end_pos table 0))
             (drop (S (device_ops table)) (oracle w)))
      (backup_log p ++ validation_log p ++ [Open p true]
       ++ patch_log table
       ++ [Close; Cout "Patching completed successfully."]).
Proof.
  intros A E R W S G O P D. apply faultless_S in D as [D1 D2].
  rewrite (main_with_patched table argv p f w A E R W S G D1 O).
  rewrite (apply_patches_ok table p f (files (backed_up p f w))
             (Fstream (Some p) false false 0) (drop 1 (oracle w))
             eq_refl eq_refl (backed_up_target p f w E) P D2).
  cbn [final events].
  rewrite (close_run p) by done. cbn [final].
  by rewrite drop_drop.
Qed.

(** X11. On a readable and writable target of the expected size, from a
    closed stream and with nothing refused, [main] exits with
    [EXIT_SUCCESS]; the target then holds its bytes with the table
    stored over them, the backup holds the target as it was, and the
    stream is closed again and good. *)
Theorem main_with_fault_free_run (table : list (Z * list byte))
    (argv : list string) (p : string) (f : file) (w : world) :
  argv !! 1%nat = Some p →
  files w !! p = Some f → readable f = true → writable f = true →
  fsize f = kExpectedSize →
  (∀ g, files w !! (p +:+ ".backup") = Some g → writable g = true) →
  is_open (wowExe w) = false →
  Forall (λ e, 0 ≤ e.1) table →
  faultless (S (device_ops table)) (oracle w) = true →
  value (main_with table argv w) = EXIT_SUCCESS
  ∧ files (final (main_with table argv w)) !! p
    = Some (with_data f (apply_table table (data f)))
  ∧ files (final (main_with table argv w)) !! (p +:+ ".backup") = Some f
  ∧ is_open (wowExe (final (main_with table argv w))) = false
  ∧ fail (wowExe (final (main_with table argv w))) = false
  ∧ events (main_with table argv w)
    = backup_log p ++ validation_log p ++ [Open p true]
      ++ patch_log table
      ++ [Close; Cout "Patching completed successfully."].
Proof.
  intros A E R W S G O P D.
  rewrite (main_with_fault_free table argv p f w A E R W S G O P D).
  cbn [value final events files wowExe].
  split_and!; [done | apply lookup_insert_eq | | done | done | done].
  rewrite lookup_insert_ne by apply target_not_backup.
  apply lookup_insert_eq.
Qed.

Lemma main_with_fault_free_run_witness :
  value (main ["patcher"; "Wow.exe"] (pristine_world [])) = EXIT_SUCCESS
  ∧ files (final (main ["patcher"; "Wow.exe"] (pristine_world [])))
      !! ("Wow.exe" +:+ ".backup")
    = Some pristine_exe.
Proof.
  destruct (main_with_fault_free_run patches ["patcher"; "Wow.exe"] "Wow.exe"
              pristine_exe (pristine_world []))
    as (V & _ & B & _);
    [ reflexivity | apply pristine_lookup | reflexivity | reflexivity
    | apply pristine_size | apply pristine_no_backup | reflexivity
    | by repeat constructor | reflexivity | ].
  split; [exact V | exact B].
Defined.

Lemma patches_in_range : in_range kExpectedSize patches = true.
Proof. reflexivity. Qed.

Lemma patches_disjoint : disjoint patches = true.
Proof. reflexivity. Qed.

(** X12. The table of [main] lies within the expected size and no two
    of its entries overlap.  So after a run in which nothing is refused
    the target has its length, every entry's bytes at the entry's offset,
    and every byte that no entry writes as it was. *)
Theorem main_stores_every_entry (argv : list string) (p : string) (f : file)
    (w : world) :
  argv !! 1%nat = Some p →
  files w !! p = Some f → readable f = true → writable f = true →
  fsize f = kExpectedSize →
  (∀ g, files w !! (p +:+ ".backup") = Some g → writable g = true) →
  is_open (wowExe w) = false →
  faultless (S (device_ops patches)) (oracle w) = true →
  ∃ f', files (final (main argv w)) !! p = Some f'
        ∧ length (data f') = length (data f)
        ∧ (∀ pos bytes k b, (pos, bytes) ∈ patches → bytes !! k = Some b →
             data f' !! (Z.to_nat pos + k)%nat = Some b)
        ∧ (∀ i, 0 ≤ i → Forall (λ e, covers e i = false) patches →
             data f' !! Z.to_nat i = data f !! Z.to_nat i).
Proof.
  intros A E R W S G O D.
  assert (in_range (Z.of_nat (length (data f))) patches = true) as IR.
  { change (Z.of_nat (length (data f))) with (fsize f). rewrite S.
    apply patches_in_range. }
  pose proof (in_range_nonneg _ _ IR) as P.
  unfold main.
  rewrite (main_with_fault_free patches argv p f w A E R W S G O P D).
  cbn [final files].
  eexists. split; [apply lookup_insert_eq|]. cbn [data with_data].
  split_and!.
  - by apply apply_table_length.
  - intros pos bytes k b H K.
    assert (0 ≤ pos) as P0
      by apply (proj1 (Forall_forall _ _) P (pos, bytes) H).
    apply lookup_lt_Some in K as L.
    replace (Z.to_nat pos + k)%nat with (Z.to_nat (pos + Z.of_nat k)) by lia.
    rewrite apply_table_overlay by (done || lia).
    rewrite (overlay_disjoint patches (pos, bytes));
      [| apply patches_disjoint | done |].
    + cbn [fst snd].
      by replace (Z.to_nat (pos + Z.of_nat k - pos)) with k by lia.
    + unfold covers. cbn [fst snd]. apply andb_true_intro.
      split; [apply Z.leb_le | apply Z.ltb_lt]; lia.
  - intros i I U. rewrite apply_table_overlay by done.
    by apply overlay_outside.
Qed.

(** The first byte of the entry at 0x16D899. *)
Lemma main_stores_every_entry_witness :
  ∃ f', files (final (main ["patcher"; "Wow.exe"] (pristine_world [])))
          !! "Wow.exe" = Some f'
        ∧ data f' !! Z.to_nat 0x16D899 = Some x05.
Proof.
  destruct (main_stores_every_entry ["patcher"; "Wow.exe"] "Wow.exe"
              pristine_exe (pristine_world []))
    as (f' & E & _ & B & _);
    [ reflexivity | apply pristine_lookup | reflexivity | reflexivity
    | apply pristine_size | apply pristine_no_backup | reflexivity
    | reflexivity | ].
  exists f'. split; [exact E|].
  rewrite <- (Nat.add_0_r (Z.to_nat 0x16D899)).
  apply (B 0x16D899 [x05; x01; x00; x00; x00] 0%nat x05); [|reflexivity].
  unfold patches. do 6 apply list_elem_of_further. apply list_elem_of_here.
Defined.

(** X13. A second run overwrites the backup.  When [main] has run
    without a fault and runs again on what it left, the second run
    succeeds and leaves the target as the first run left it; the backup
    then holds that patched target, and no longer the original. *)
Theorem main_twice (table : list (Z * list byte)) (argv : list string)
    (p : string) (f : file) (dir : gmap string file) (o o' : list bool) :
  argv !! 1%nat = Some p →
  dir !! p = Some f → readable f = true → writable f = true →
  fsize f = kExpectedSize →
  (∀ g, dir !! (p +:+ ".backup") = Some g → writable g = true) →
  in_range kExpectedSize table = true →
  faultless (S (device_ops table)) o = true →
  faultless (S (device_ops table)) o' = true →
  value (main_with table argv
           (boot (files (final (main_with table argv (boot dir o)))) o'))
  = EXIT_SUCCESS
  ∧ files (final (main_with table argv
             (boot (files (final (main_with table argv (boot dir o)))) o')))
      !! p
    = files (final (main_with table argv (boot dir o))) !! p
  ∧ files (final (main_with table argv
             (boot (files (final (main_with table argv (boot dir o)))) o')))
      !! (p +:+ ".backup")
    = files (final (main_with table argv (boot dir o))) !! p.
Proof.
  intros A E R W S G IR D D'.
  pose proof (in_range_nonneg _ _ IR) as P.
  rewrite (main_with_fault_free table argv p f (boot dir o)
             A E R W S G eq_refl P D).
  cbn [final files boot].
  assert (fsize (with_data f (apply_table table (data f))) = kExpectedSize) as S'.
  { unfold fsize in *. cbn [data with_data].
    rewrite apply_table_length; by rewrite S. }
  rewrite (main_with_fault_free table argv p
             (with_data f (apply_table table (data f))));
    [| done | apply lookup_insert_eq | done | done | done | | done | done | done].
  - cbn [value final files].
    split_and!; [done | | ].
    + rewrite !lookup_insert_eq. f_equal. unfold with_data.
      cbn [data readable writable]. f_equal.
      apply apply_table_twice. unfold fsize in S. by rewrite S.
    + rewrite (lookup_insert_ne _ p) by apply target_not_backup.
      by rewrite !lookup_insert_eq.
  - intros g. cbn [files boot].
    rewrite lookup_insert_ne by apply target_not_backup.
    rewrite lookup_insert_eq. by intros [= <-].
Qed.

Lemma main_twice_witness :
  files (final (main ["patcher"; "Wow.exe"]
           (boot (files (final (main ["patcher"; "Wow.exe"]
                                  (pristine_world [])))) [])))
    !! ("Wow.exe" +:+ ".backup")
  = files (final (main ["patcher"; "Wow.exe"] (pristine_world []))) !! "Wow.exe".
Proof.
  destruct (main_twice patches ["patcher"; "Wow.exe"] "Wow.exe" pristine_exe
              {[ "Wow.exe" := pristine_exe ]} [] [])
    as (_ & _ & B);
    [ reflexivity | apply lookup_singleton_eq | reflexivity | reflexivity
    | apply pristine_size | apply (pristine_no_backup []) | reflexivity
    | reflexivity | reflexivity | exact B ].
Defined.

(** ** What no run of [main] does *)

(** X14. A run of [main] that starts with the stream closed ends with
    the stream closed, whichever gate stops it and whatever the device
    refuses. *)
Theorem main_leaves_stream_closed (table : list (Z * list byte))
    (argv : list string) (w : world) :
  is_open (wowExe w) = false →
  is_open (wowExe (final (main_with table argv w))) = false.
Proof.
  intros O.
  destruct (main_with_run table argv w)
    as [A | p A E | p f w' A E B S0 G0 | p f t A E B D N T
       | p f A E D R S O' | p f A E D R S O' W];
    cbn [final wowExe backed_up]; try done.
  - by rewrite S0.
  - apply close_closed.
Qed.

Lemma main_leaves_stream_closed_witness :
  is_open (wowExe (final faulty_run)) = false.
Proof.
  apply (main_leaves_stream_closed patches ["patcher"; "Wow.exe"]
           (pristine_world [true; true; false])).
  reflexivity.
Defined.

(** X15. A run of [main] changes no file but the target and its backup. *)
Theorem main_touches_two_files_only (table : list (Z * list byte))
    (argv : list string) (w : world) (q : string) :
  (∀ p, argv !! 1%nat = Some p → q ≠ p ∧ q ≠ p +:+ ".backup") →
  files (final (main_with table argv w)) !! q = files w !! q.
Proof.
  intros Q.
  destruct (main_with_run table argv w)
    as [A | p A E | p f w' A E B S0 G0 | p f t A E B D N T
       | p f A E D R S O' | p f A E D R S O' W];
    cbn [final files backed_up]; try done.
  1: destruct (Q p A) as [Q1 Q2]; by apply G0.
  1-2: destruct (Q p A) as [Q1 Q2]; by apply lookup_insert_ne.
  destruct (Q p A) as [Q1 Q2].
  match goal with
  | |- files (final (stream.close ?w0)) !! _ = _ =>
      destruct (close_events w0) as [_ ->]
  end.
  destruct (patch_stage_apply_patches table
    (World (<[p +:+ ".backup" := f]> (files w)) (Fstream (Some p) false false 0)
           (drop 1 (oracle w)))) as [[_ G] _].
  rewrite G by (cbn [wowExe fd]; congruence).
  by apply lookup_insert_ne.
Qed.

Lemma main_touches_two_files_only_witness :
  files (final (main ["patcher"; "Wow.exe"] tiny_world)) !! "notes.txt"
  = files tiny_world !! "notes.txt".
Proof.
  apply (main_touches_two_files_only patches ["patcher"; "Wow.exe"] tiny_world).
  intros p [= <-]. split; discriminate.
Defined.

(** X16. [main] exits with [EXIT_SUCCESS] only if every gate has passed:
    the target exists, can be read and written, has the expected size,
    its copy was not refused, and the stream was closed before. *)
Theorem exit_success_only_if (table : list (Z * list byte))
    (argv : list string) (w : world) :
  value (main_with table argv w) = EXIT_SUCCESS →
  ∃ p f, argv !! 1%nat = Some p ∧ files w !! p = Some f
         ∧ readable f = true ∧ writable f = true
         ∧ fsize f = kExpectedSize
         ∧ faultless 1 (oracle w) = true
         ∧ is_open (wowExe w) = false.
Proof.
  destruct (main_with_run table argv w)
    as [A | p A E | p f w' A E B S0 G0 | p f t A E B D N T
       | p f A E D R S O' | p f A E D R S O' W];
    cbn [value]; try discriminate.
  intros _. by exists p, f.
Qed.

Lemma exit_success_only_if_witness :
  ∃ p f, ["patcher"; "Wow.exe"] !! 1%nat = Some p
         ∧ files (pristine_world [true; true; false]) !! p = Some f
         ∧ fsize f = kExpectedSize.
Proof.
  destruct (exit_success_only_if patches ["patcher"; "Wow.exe"]
              (pristine_world [true; true; false]))
    as (p & f & A & E & _ & _ & S & _).
  - exact (proj1 faulty_run_outcome).
  - by exists p, f.
Defined.



(** ** Restoring after a run *)

(** Once [createBackup] has returned the path, the backup holds the
    target as it was until the end of the run. *)
Lemma backup_after_main (table : list (Z * list byte)) (argv : list string)
    (p : string) (f : file) (w : world) :
  argv !! 1%nat = Some p → files w !! p = Some f →
  is_Some (value (createBackup p w)) →
  files (final (main_with table argv w)) !! (p +:+ ".backup") = Some f.
Proof.
  intros A E [bp B].
  destruct (main_with_run table argv w)
    as [A' | p' A' E' | p' f' w' A' E' B' S0 G0 | p' f' t A' E' B' D N T
       | p' f' A' E' D R S O' | p' f' A' E' D R S O' W];
    cbn [final files backed_up].
  - destruct (argv_too_short argv p A' A).
  - congruence.
  - assert (p' = p) as -> by congruence. by rewrite B' in B.
  - assert (p' = p) as -> by congruence.
    assert (f' = f) as -> by congruence. apply lookup_insert_eq.
  - assert (p' = p) as -> by congruence.
    assert (f' = f) as -> by congruence. apply lookup_insert_eq.
  - assert (p' = p) as -> by congruence.
    assert (f' = f) as -> by congruence. apply backup_survives_patching.
Qed.

(** X18. Backup and restore round trip: whatever a run of [main] that
    made its backup did to the target afterwards, a [restoreBackup] that
    nothing refuses returns true and leaves the target as it was before
    the run, with the backup gone. *)
Theorem restore_undoes_main (table : list (Z * list byte)) (argv : list string)
    (p : string) (f : file) (w : world) :
  argv !! 1%nat = Some p → files w !! p = Some f →
  is_Some (value (createBackup p w)) →
  faultless 2 (oracle (final (main_with table argv w))) = true →
  value (restoreBackup p (final (main_with table argv w))) = true
  ∧ files (final (restoreBackup p (final (main_with table argv w)))) !! p
    = Some f
  ∧ files (final (restoreBackup p (final (main_with table argv w))))
      !! (p +:+ ".backup") = None.
Proof.
  intros A E B D.
  apply restoreBackup_ok; [by apply backup_after_main | done].
Qed.

(** A run that patches the target, then the restore. *)
Lemma restore_undoes_main_witness :
  files (final (restoreBackup "Wow.exe"
                  (final (main ["patcher"; "Wow.exe"] (pristine_world [])))))
    !! "Wow.exe"
  = Some pristine_exe.
Proof.
  destruct (restore_undoes_main patches ["patcher"; "Wow.exe"] "Wow.exe"
              pristine_exe (pristine_world []))
    as (_ & F & _);
    [ reflexivity | apply pristine_lookup | | | exact F ].
  - rewrite (createBackup_ok "Wow.exe" pristine_exe);
      [ by eexists | apply pristine_lookup | reflexivity
      | apply pristine_no_backup | reflexivity ].
  - rewrite (main_with_fault_free patches ["patcher"; "Wow.exe"] "Wow.exe"
               pristine_exe (pristine_world []));
      [ | reflexivity | apply pristine_lookup | reflexivity | reflexivity
        | apply pristine_size | apply pristine_no_backup | reflexivity
        | by repeat constructor | reflexivity ].
    cbn [final oracle pristine_world boot]. by rewrite drop_nil.
Defined.

(** X19. A run of [main] that exits with [EXIT_FAILURE] has left the
    target as it was. *)
Theorem main_failure_keeps_target (table : list (Z * list byte))
    (argv : list string) (p : string) (w : world) :
  argv !! 1%nat = Some p →
  value (main_with table argv w) = EXIT_FAILURE →
  files (final (main_with table argv w)) !! p = files w !! p.
Proof.
  intros A.
  destruct (main_with_run table argv w)
    as [A' | p' A' E' | p' f' w' A' E' B' S0 G0 | p' f' t A' E' B' D N T
       | p' f' A' E' D R S O' | p' f' A' E' D R S O' W];
    cbn [value final files backed_up]; try done.
  1: intros _; assert (p' = p) as -> by congruence;
     by apply G0, target_not_backup.
  1-2: intros _; assert (p' = p) as -> by congruence;
       by rewrite lookup_insert_ne by apply backup_path_fresh.
Qed.

(** The stream cannot be opened on a target that is read-only. *)
Lemma main_failure_keeps_target_witness :
  files (final (main ["patcher"; "Wow.exe"]
                  (boot {[ "Wow.exe" := File [x4d; x5a] true false ]} [])))
    !! "Wow.exe"
  = Some (File [x4d; x5a] true false).
Proof.
  rewrite (main_failure_keeps_target patches ["patcher"; "Wow.exe"] "Wow.exe");
    [apply lookup_singleton_eq | reflexivity | vm_compute; reflexivity].
Defined.

(** ** The patching stage under any device *)

(** X20. Whatever the device answers, the patching stage changes no file
    but the one the stream is bound to, leaves the stream bound as it
    was, and logs nothing but calls on the stream and diagnostics. *)
Theorem apply_patches_frame (table : list (Z * list byte)) (w : world) :
  fd (wowExe (final (apply_patches table w))) = fd (wowExe w)
  ∧ (∀ q, fd (wowExe w) ≠ Some q →
          files (final (apply_patches table w)) !! q = files w !! q)
  ∧ Forall (λ e, patch_event e = true) (events (apply_patches table w)).
Proof.
  destruct (patch_stage_apply_patches table w) as [[F G] L]. by split_and!.
Qed.

Lemma faultless_replicate (n : nat) (o : list bool) :
  faultless n (replicate n true ++ o) = true.
Proof.
  induction n as [|n IH]; [done|].
  cbn [replicate app]. by rewrite faultless_cons.
Qed.

Lemma drop_replicate_app (n : nat) (o : list bool) :
  drop n (replicate n true ++ o) = o.
Proof.
  rewrite drop_app_length'; [done | by rewrite length_replicate].
Qed.

Lemma apply_table_snoc (table : list (Z * list byte)) (e : Z * list byte)
    (l : list byte) :
  apply_table (table ++ [e]) l = store_seq (apply_table table l) e.1 e.2.
Proof. unfold apply_table. by rewrite fold_left_app. Qed.

(** X21. A refused byte ends the patching at the next entry.  When the
    device refuses a value of some entry that fits the buffer, the entries
    before it are in the file in full and that entry up to the refused
    value; the stream takes the rest of the entry without a message.  The seek of the entry that
    follows fails, which is logged, and each entry after that one is
    answered with "Stream is not open": nothing of those entries is in
    the file, and the stream is left failed. *)
Theorem apply_patches_stops_at_refusal
    (before : list (Z * list byte)) (pos : Z) (written : list byte) (v : byte)
    (rest : list byte) (pos' : Z) (bytes' : list byte)
    (after : list (Z * list byte))
    (p : string) (f : file) (dir : gmap string file) (s : fstream)
    (o : list bool) :
  fail s = false → fd s = Some p → dir !! p = Some f →
  Forall (λ e, 0 ≤ e.1) before → 0 ≤ pos → 0 ≤ pos' →
  (length (written ++ v :: rest) ≤ buffer_room)%nat →
  files (final (apply_patches
    (before ++ (pos, written ++ v :: rest) :: (pos', bytes') :: after)
    (World dir s
       (replicate (device_ops before) true
        ++ true :: replicate (length written) true ++ false :: o))))
  = <[p := with_data f (apply_table (before ++ [(pos, written)]) (data f))]> dir
  ∧ events (apply_patches
      (before ++ (pos, written ++ v :: rest) :: (pos', bytes') :: after)
      (World dir s
         (replicate (device_ops before) true
          ++ true :: replicate (length written) true ++ false :: o)))
    = patch_log before
      ++ (Clear :: Seekp pos true
          :: map (λ b, Write [b] true) (written ++ v :: rest))
      ++ [Clear; Seekp pos' false;
          Cerr "Failed to set position in the stream"]
      ++ map (λ _, Cerr "Stream is not open") after
  ∧ fail (wowExe (final (apply_patches
      (before ++ (pos, written ++ v :: rest) :: (pos', bytes') :: after)
      (World dir s
         (replicate (device_ops before) true
          ++ true :: replicate (length written) true ++ false :: o)))))
    = true.
Proof.
  intros F O E P P0 P0' _.
  rewrite apply_patches_app.
  rewrite (apply_patches_ok before p f dir s _ F O E P
             (faultless_replicate _ _)).
  cbn [final events]. rewrite drop_replicate_app, apply_patches_cons.
  rewrite (writeBytesAt_write_refused pos written (v :: rest) p
             (with_data f (apply_table before (data f))));
    [| done | done | apply lookup_insert_eq | done].
  cbn [final events]. rewrite apply_patches_cons.
  rewrite writeBytesAt_seek_fault;
    [| by rewrite !fail_set_ppos | by apply (is_open_fd _ p) | done].
  cbn [final events].
  rewrite apply_patches_skipped by apply fail_setstate_failbit.
  cbn [final events files wowExe]. rewrite insert_insert_eq, apply_table_snoc.
  by split_and!.
Qed.

(** The second of four entries is refused at its second value. *)
Lemma apply_patches_stops_at_refusal_witness :
  files (final (apply_patches
                  [(0, [xaa]); (1, [xbb; xcc]); (3, [xdd]); (0, [xee])]
                  (open_world [true; true; true; true; false])))
    !! "f.bin"
  = Some (File [xaa; xbb; x02; x03] true true).
Proof.
  destruct (apply_patches_stops_at_refusal [(0, [xaa])] 1 [xbb] xcc []
              3 [xdd] [(0, [xee])] "f.bin" small_file
              {[ "f.bin" := small_file ]}
              (Fstream (Some "f.bin") false false 0) [])
    as [F _];
    [ reflexivity | reflexivity | apply lookup_singleton_eq
    | by repeat constructor | discriminate | discriminate
    | vm_compute; lia | ].
  change (files (final (apply_patches
                          [(0, [xaa]); (1, [xbb; xcc]); (3, [xdd]); (0, [xee])]
                          (open_world [true; true; true; true; false])))
          = <["f.bin" := with_data small_file
                           (apply_table ([(0, [xaa])] ++ [(1, [xbb])])
                              (data small_file))]>
              {[ "f.bin" := small_file ]}) in F.
  rewrite F. apply lookup_insert_eq.
Defined.

(** ** The validator reads only *)

(** X22. [validateExecutable] leaves the world as it finds it, pass or
    fail: no file, not the stream, no answer of the device; and it logs
    no call that changes a file or the stream. *)
Theorem validateExecutable_changes_nothing (p : string) (w : world) :
  final (validateExecutable p w) = w
  ∧ Forall (λ e, match e with
                 | FsCopy _ _ _ | FsRemove _ _ | FsRename _ _ _ => false
                 | _ => negb (stream_event e)
                 end = true)
      (events (validateExecutable p w)).
Proof.
  destruct (validateExecutable_cases p w)
    as [(f & E & R & S & ->) | (N & t & -> & T)]; cbn [final events].
  - split; [done | by repeat constructor].
  - split; [done|]. constructor; [done|]. apply Forall_app.
    split; [| by repeat constructor].
    eapply Forall_impl; [exact T|]. by intros [].
Qed.
